(** * adscode3.py: normalisation, back-scaling, confidence envelopes and
    table reconciliation of the indicator analysis script.

    Numbers.  The script computes on float64 values, and the development
    has them in two ways.

    [scaler] and [backscale] are written over an arithmetic: the four
    operations, NaN, the test for NaN and the comparison.  A statement about
    them that names no arithmetic holds of every arithmetic, float64 among
    them.  On given inputs they are run in float64 itself, the binary64
    floats of the kernel, with the rounding, the overflow and the
    infinities of the code.

    [err_ranges] only selects among the values of the model function, with
    [np.minimum] and [np.maximum]; these do not round.  There a value is a
    rational number or NaN, and the arguments of the model function are
    rational numbers: finite floats are rationals.  Equality of such
    numbers is [Qeq] ([==]); the order is [Qle].

    Exceptions are values of [exn]; a computation that may raise returns a
    [result]. *)

From Corelib Require Import PrimFloat.
From Stdlib Require Import QArith Qminmax Lqa.
From stdpp Require Import gmap strings list.

Set Warnings "-inexact-float".

(** ** Exceptions and the error monad *)

Inductive exn : Type :=
  | TypeError
  | ValueError
  | IndexError
  | KeyError (key : string)
  | NameError (name : string).

Inductive result (A : Type) : Type :=
  | Ok (a : A)
  | Raise (e : exn).
Arguments Ok {A} a.
Arguments Raise {A} e.

#[global] Instance result_ret : MRet result := λ A a, Ok a.
#[global] Instance result_bind : MBind result := λ A B f m,
  match m with
  | Ok a => f a
  | Raise e => Raise e
  end.

(** [for v in l: acc = body(acc, v)], stopping at the first exception. *)
Fixpoint for_each {A S : Type} (l : list A) (acc : S) (body : S → A → result S)
  : result S :=
  match l with
  | [] => Ok acc
  | v :: l' => acc' ← body acc v; for_each l' acc' body
  end.

(** ** Numbers with NaN

    A value that is a rational number or NaN.  Arithmetic on these numbers
    is exact; with NaN it gives NaN, and so does a quotient by zero. *)
Inductive float : Type :=
  | NaN
  | Num (q : Q).

Definition lift2 (f : Q → Q → Q) (a b : float) : float :=
  match a, b with
  | Num x, Num y => Num (f x y)
  | _, _ => NaN
  end.

Definition fadd : float → float → float := lift2 Qplus.
Definition fsub : float → float → float := lift2 Qminus.
Definition fmul : float → float → float := lift2 Qmult.

Definition fdiv (a b : float) : float :=
  match a, b with
  | Num x, Num y => if Qeq_bool y 0 then NaN else Num (x / y)
  | _, _ => NaN
  end.

(** [np.minimum] and [np.maximum] on two values: NaN if either is. *)
Definition fmin : float → float → float := lift2 Qmin.
Definition fmax : float → float → float := lift2 Qmax.

(** [a <= b] on floats: false when either side is NaN. *)
Definition fle (a b : float) : Prop :=
  match a, b with
  | Num x, Num y => (x <= y)%Q
  | _, _ => False
  end.

(** Equality of cells as numbers. *)
Definition feq (a b : float) : Prop :=
  match a, b with
  | NaN, NaN => True
  | Num x, Num y => (x == y)%Q
  | _, _ => False
  end.

(** ** Arithmetic

    The operations that [scaler] and [backscale] apply to the cells of
    their arguments.  Two arithmetics are given.  [binary64] is float64: the
    operations of IEEE 754 as the kernel computes them.  [exact] is the
    arithmetic of the rational numbers with NaN. *)

Class Arith (F : Type) : Type := {
  add : F → F → F;
  sub : F → F → F;
  mul : F → F → F;
  div : F → F → F;
  nan : F;
  isnan : F → bool;
  less : F → F → bool;
}.

#[global] Instance binary64 : Arith PrimFloat.float := {|
  add := PrimFloat.add;
  sub := PrimFloat.sub;
  mul := PrimFloat.mul;
  div := PrimFloat.div;
  nan := PrimFloat.nan;
  isnan := PrimFloat.is_nan;
  less := PrimFloat.ltb;
|}.

#[global] Instance exact : Arith float := {|
  add := fadd;
  sub := fsub;
  mul := fmul;
  div := fdiv;
  nan := NaN;
  isnan := λ c, match c with NaN => true | Num _ => false end;
  less := λ a b, match a, b with
                 | Num x, Num y => negb (Qle_bool y x)
                 | _, _ => false
                 end;
|}.

(** ** Module errors: [err_ranges] *)

Module Errors.

(** A model function [func(x, *p)]: the query array [x], the unpacked
    parameters [p], and an array of values as the result. *)
Definition callable : Type := list Q → list Q → result (list float).

(** numpy's binary ufuncs on one-dimensional arrays: equal shapes combine
    elementwise, a one-element array is broadcast, anything else is a
    [ValueError]. *)
Definition broadcast2 (f : float → float → float) (a b : list float)
  : result (list float) :=
  if decide (length a = length b) then Ok (zip_with f a b)
  else match a, b with
       | [u], _ => Ok (map (f u) b)
       | _, [v] => Ok (map (λ u, f u v) a)
       | _, _ => Raise ValueError
       end.

Definition np_minimum : list float → list float → result (list float) :=
  broadcast2 fmin.
Definition np_maximum : list float → list float → result (list float) :=
  broadcast2 fmax.

(** [itertools.product] over the pools, as its documentation defines it:
    [result = [[]]; for pool in pools: result = [x+[y] for x in result for y in pool]]. *)
Definition product_step {A : Type} (res : list (list A)) (pool : list A)
  : list (list A) :=
  x ← res; (λ y, x ++ [y]) <$> pool.

Definition itertools_product {A : Type} (pools : list (list A)) : list (list A) :=
  foldl product_step [[]] pools.

(** The list [uplow] of (pmin, pmax) tuples built by the first loop. *)
Definition uplow_of (param sigma : list Q) : list (Q * Q) :=
  zip_with (λ p s, ((p - s)%Q, (p + s)%Q)) param sigma.

Definition pool_of (t : Q * Q) : list Q := [t.1; t.2].

Definition pmix_of (param sigma : list Q) : list (list Q) :=
  itertools_product (pool_of <$> uplow_of param sigma).

Definition err_ranges (x : list Q) (func : callable) (param sigma : list Q)
  : result (list float * list float) :=
  lower ← func x param;
  let upper := lower in
  let pmix := pmix_of param sigma in
  for_each pmix (lower, upper) (λ lu p,
    y ← func x p;
    lower' ← np_minimum lu.1 y;
    upper' ← np_maximum lu.2 y;
    Ok (lower', upper')).

(** *** The two model functions of the script *)

Section Models.
(** The value of [x**b] and [np.exp], where they are finite numbers:
    left abstract. *)
Variable pow_value : Q → Q → Q.
Variable np_exp : Q → Q.

Definition integral (b : Q) : bool := Pos.eqb (Qden (Qred b)) 1.

(** [x**b] on numpy floats: NaN for a negative base with an exponent that
    is not an integer, and the number [pow_value x b] otherwise (where numpy
    overflows to an infinity, the numbers here have no value for it). *)
Definition np_power (x b : Q) : float :=
  if Qle_bool 0 x || integral b then Num (pow_value x b) else NaN.

Definition power_function (x a b : Q) : float := fmul (Num a) (np_power x b).

Definition sigmoid_function (x a b : Q) : float :=
  fdiv (Num a) (fadd (Num 1) (Num (np_exp (- b * x)))).

(** Calling a three-argument Python function as [f(x, *p)]: a [TypeError]
    unless [p] has two entries; the body is evaluated elementwise over the
    array [x]. *)
Definition star_call (f : Q → Q → Q → float) : callable := λ x p,
  match p with
  | [a; b] => Ok (map (λ xj, f xj a b) x)
  | _ => Raise TypeError
  end.
End Models.

(** *** Specification side: sign combinations, minimum and maximum *)

(** All sign vectors of length [n], the first sign varying slowest;
    [false] stands for minus and [true] for plus. *)
Fixpoint all_signs (n : nat) : list (list bool) :=
  match n with
  | O => [[]]
  | S n' => (cons false <$> all_signs n') ++ (cons true <$> all_signs n')
  end.

Definition endpoint (sign : bool) (p s : Q) : Q :=
  if sign then (p + s)%Q else (p - s)%Q.

Fixpoint perturb (param sigma : list Q) (signs : list bool) : list Q :=
  match param, sigma, signs with
  | p :: param', s :: sigma', b :: signs' =>
      endpoint b p s :: perturb param' sigma' signs'
  | _, _, _ => []
  end.

(** The parameter vectors [p_i ± s_i], one for each of the sign vectors. *)
Definition sign_combinations (param sigma : list Q) : list (list Q) :=
  perturb param sigma <$> all_signs (length param).

(** The minimum and the maximum of a list of floats, as [np.minimum] and
    [np.maximum] understand them: a member of the list below (above) all
    members, and NaN as soon as the list holds NaN. *)
Definition is_minimum (v : float) (l : list float) : Prop :=
  (NaN ∈ l → v = NaN) ∧ (NaN ∉ l → v ∈ l ∧ ∀ w, w ∈ l → fle v w).

Definition is_maximum (v : float) (l : list float) : Prop :=
  (NaN ∈ l → v = NaN) ∧ (NaN ∉ l → v ∈ l ∧ ∀ w, w ∈ l → fle w v).

(** The values among which the envelope at the query point [xj] is taken:
    the baseline and the curve of every sign combination, where [g p xj] is
    the model's value at [xj] under the parameters [p]. *)
Definition curve_values (g : list Q → Q → float) (param sigma : list Q) (xj : Q)
  : list float :=
  g param xj :: ((λ q, g q xj) <$> sign_combinations param sigma).

(** [func] takes [n] parameters and computes [g] at every query point. *)
Definition elementwise (n : nat) (g : list Q → Q → float) (func : callable) : Prop :=
  ∀ x p, length p = n → func x p = Ok (map (g p) x).

(** The pointwise value of a three-argument function called as [f(x, *p)]. *)
Definition unpack2 (f : Q → Q → Q → float) (p : list Q) (xj : Q) : float :=
  match p with
  | [a; b] => f xj a b
  | _ => NaN
  end.

End Errors.

(** ** Module cluster tools: [scaler] and [backscale] *)

Module ClusterTools.

(** A numeric data frame is the sequence of its columns and a series the
    sequence of its values.  Column labels are left out: they are distinct,
    and the series that [scaler] combines with the frame are computed from
    that frame, so that pandas' alignment by label is alignment by
    position. *)
Abbreviation DataFrame F := (list (list F)) (only parsing).
Abbreviation Series F := (list F) (only parsing).

(** A two-dimensional numpy array, held as the sequence of its columns:
    [arr[:, i]] is the [i]-th entry. *)
Abbreviation ndarray F := (list (list F)) (only parsing).

Abbreviation loc := nat (only parsing).
Abbreviation heap F := (gmap nat (list (list F))) (only parsing).

Definition to_numpy {A : Type} (v : list A) : list A := v.

(** *** The store of array objects

    [backscale] assigns into the array it is given, so arrays live in a
    store and are passed by reference.  A computation takes the store and
    returns its outcome with the store it leaves behind, also when it
    raises. *)

Definition M (F A : Type) : Type := heap F → result A * heap F.

Definition ret {F A} (a : A) : M F A := λ h, (Ok a, h).
Definition raise {F A} (e : exn) : M F A := λ h, (Raise e, h).
Definition bind {F A B} (m : M F A) (k : A → M F B) : M F B := λ h,
  match m h with
  | (Ok a, h') => k a h'
  | (Raise e, h') => (Raise e, h')
  end.

Notation "x ←ₘ m ; k" := (bind m (λ x, k))
  (at level 20, m at level 100, k at level 200, only parsing).
Notation "m ;;ₘ k" := (bind m (λ _, k))
  (at level 100, k at level 200, right associativity, only parsing).

(** The array a reference points to (a reference the program holds is
    always allocated). *)
Definition deref {F} (arr : loc) (h : heap F) : ndarray F := default [] (h !! arr).

(** [arr[:, i]] as an expression: [IndexError] beyond the last column. *)
Definition get_column {F} (arr : loc) (i : nat) : M F (list F) := λ h,
  match deref arr h !! i with
  | Some col => (Ok col, h)
  | None => (Raise IndexError, h)
  end.

(** [arr[:, i] = col]: the assignment updates the array object in place. *)
Definition set_column {F} (arr : loc) (i : nat) (col : list F) : M F unit := λ h,
  if decide (i < length (deref arr h))
  then (Ok (), <[arr := <[i := col]> (deref arr h)]> h)
  else (Raise IndexError, h).

(** [a[i]] on a one-dimensional array. *)
Definition item {F} (a : list F) (i : nat) : M F F :=
  match a !! i with
  | Some v => ret v
  | None => raise IndexError
  end.

(** [for i in l: body(i)]. *)
Fixpoint for_range {F} (l : list nat) (body : nat → M F unit) : M F unit :=
  match l with
  | [] => ret ()
  | i :: l' => body i ;;ₘ for_range l' body
  end.

(** *** The two functions *)

Section Arithmetic.
Context {F : Type} `{Arith F}.

(** A reduction of a column: pandas' reductions skip NaN, and a column
    without a number reduces to NaN.  [better w m] tells whether the cell
    [w] replaces the value [m] found so far. *)
Definition reduce (better : F → F → bool) (col : list F) : F :=
  match filter (λ c, isnan c = false) col with
  | [] => nan
  | c :: cs => foldl (λ m w, if better w m then w else m) c cs
  end.

Definition column_min (col : list F) : F := reduce less col.
Definition column_max (col : list F) : F := reduce (λ w m, less m w) col.

(** [df.min()] and [df.max()]: one value per column. *)
Definition frame_min (df : DataFrame F) : Series F := column_min <$> df.
Definition frame_max (df : DataFrame F) : Series F := column_max <$> df.

(** [df op series]: every cell of a column with that column's entry. *)
Definition frame_series (op : F → F → F) (df : DataFrame F) (s : Series F)
  : DataFrame F :=
  zip_with (λ col m, (λ v, op v m) <$> col) df s.

Definition series_series (op : F → F → F) (s1 s2 : Series F) : Series F :=
  zip_with op s1 s2.

Definition scaler (df : DataFrame F) : DataFrame F * Series F * Series F :=
  let df_min := frame_min df in
  let df_max := frame_max df in
  let df_normalized :=
    frame_series div (frame_series sub df df_min) (series_series sub df_max df_min) in
  (df_normalized, df_min, df_max).

Definition backscale (arr : loc) (df_min df_max : Series F) : M F loc :=
  let minima := to_numpy df_min in
  let maxima := to_numpy df_max in
  for_range (seq 0 (length minima)) (λ i,
    col ←ₘ get_column arr i;
    mx ←ₘ item maxima i;
    mn ←ₘ item minima i;
    set_column arr i ((λ v, add (mul v (sub mx mn)) mn) <$> col)) ;;ₘ
  ret arr.

(** Specification side: the inverse transform of one column, and of the
    leading columns of an array. *)
Definition unscale (mn mx : F) (col : list F) : list F :=
  (λ v, add (mul v (sub mx mn)) mn) <$> col.

Fixpoint unscale_columns (cols : ndarray F) (minima maxima : list F) : ndarray F :=
  match cols, minima, maxima with
  | col :: cols', mn :: minima', mx :: maxima' =>
      unscale mn mx col :: unscale_columns cols' minima' maxima'
  | _, _, _ => cols
  end.

(** Specification side: a cell normalised with the minimum and the maximum
    of its column, and that value scaled back. *)
Definition normalised (mn mx v : F) : F := div (sub v mn) (sub mx mn).

Definition round_trip (mn mx v : F) : F :=
  add (mul (normalised mn mx v) (sub mx mn)) mn.
End Arithmetic.

End ClusterTools.

(** ** [get_diff_entries] and pandas' merge *)

Module Reconcile.

(** A frame as merge sees it: for each row the value of its key column and
    the rest of the row. *)
Abbreviation rows K P := (list (K * P)) (only parsing).

(** A frame: its named columns, in order. *)
Abbreviation DataFrame K := (list (string * list K)) (only parsing).

Section Merge.
(** The values of the key column, with the equality by which merge matches
    rows and the order by which an outer merge sorts its keys. *)
Context {K : Type} `{EqDecision K}.
Variable key_le : K → K → bool.

Definition keys {P} (t : rows K P) : list K := fst <$> t.

(** The rows of [right] that carry the key [k]. *)
Definition matches {B} (k : K) (right : rows K B) : list B :=
  omap (λ r, if decide (r.1 = k) then Some r.2 else None) right.

(** [how="inner"]: the keys of both frames, in the order of the left rows;
    a left row is paired with each of its matches. *)
Definition merge_inner {A B} (left : rows K A) (right : rows K B) : rows K (A * B) :=
  l ← left; (λ b, (l.1, (l.2, b))) <$> matches l.1 right.

(** Sorting rows by key; rows of equal keys keep their order. *)
Fixpoint insert_row {P} (r : K * P) (t : rows K P) : rows K P :=
  match t with
  | [] => [r]
  | r' :: t' => if key_le r.1 r'.1 then r :: r' :: t' else r' :: insert_row r t'
  end.

Definition sort_by_key {P} (t : rows K P) : rows K P :=
  foldr insert_row [] t.

(** [how="outer"]: the keys of either frame; the side on which a key has
    no row is filled with NaN, here [None].  The rows come sorted by key,
    as pandas documents it.  (pandas before 2.2 left the keys of the left
    frame in their order, followed by the keys that only the right frame
    has; the statements below hold with either order of the rows.) *)
Definition merge_outer {A B} (left : rows K A) (right : rows K B)
  : rows K (option A * option B) :=
  sort_by_key
    ((l ← left;
      match matches l.1 right with
      | [] => [(l.1, (Some l.2, None))]
      | bs => (λ b, (l.1, (Some l.2, Some b))) <$> bs
      end)
     ++ (r ← right;
         if decide (r.1 ∈ keys left) then [] else [(r.1, (None, Some r.2))])).

(** NaN, and the cell of a Python string. *)
Variable nan : K.
Variable text : string → K.

Definition labels (df : DataFrame K) : list string := fst <$> df.

(** The column under a label: the first one, should there be several. *)
Fixpoint column_of (df : DataFrame K) (label : string) : option (list K) :=
  match df with
  | [] => None
  | c :: df' => if decide (c.1 = label) then Some c.2 else column_of df' label
  end.

(** [df[label]]. *)
Definition getitem (df : DataFrame K) (label : string) : result (list K) :=
  match column_of df label with
  | Some col => Ok col
  | None => Raise (KeyError label)
  end.

Definition nrows (df : DataFrame K) : nat :=
  match df with
  | [] => 0
  | c :: _ => length c.2
  end.

(** [df[label] = value] with a scalar: the column under that label is
    replaced, or a new last column is added. *)
Definition setitem (df : DataFrame K) (label : string) (value : K) : DataFrame K :=
  let col := replicate (nrows df) value in
  if decide (label ∈ labels df)
  then (λ c, if decide (c.1 = label) then (c.1, col) else c) <$> df
  else df ++ [(label, col)].

(** [df[mask]]: the rows at which the mask holds. *)
Fixpoint select {A} (mask : list bool) (col : list A) : list A :=
  match mask, col with
  | b :: mask', v :: col' => if b then v :: select mask' col' else select mask' col'
  | _, _ => []
  end.

Definition mask_rows (df : DataFrame K) (mask : list bool) : DataFrame K :=
  (λ c, (c.1, select mask c.2)) <$> df.

(** The view of a key column by which a frame is merged: the rest of a
    row is stood for by the row's position. *)
Definition key_rows (col : list K) : rows K nat := imap (λ i k, (k, i)) col.

(** The cell of a column at the row a merge has chosen, NaN where the
    merge has no row on that side. *)
Definition take_cell (col : list K) (oi : option nat) : K :=
  match oi with
  | Some i => default nan (col !! i)
  | None => nan
  end.

(** A label that both frames use for a column other than the key gets
    the suffix of its side. *)
Definition suffixed (others : list string) (suffix label : string) : string :=
  if decide (label ∈ others) then label +:+ suffix else label.

Inductive how : Type := Inner | Outer.

(** The rows of a merge: for each one its key and the positions of the
    left and of the right row it is made of. *)
Definition join_plan (h : how) (lkeys rkeys : list K)
  : rows K (option nat * option nat) :=
  match h with
  | Inner => (λ r, (r.1, (Some r.2.1, Some r.2.2)))
               <$> merge_inner (key_rows lkeys) (key_rows rkeys)
  | Outer => merge_outer (key_rows lkeys) (key_rows rkeys)
  end.

Definition other_columns (df : DataFrame K) (on : string) : DataFrame K :=
  filter (λ c, c.1 ≠ on) df.

(** The columns that one side contributes to a merge. *)
Definition gather (others : list string) (suffix : string)
    (side : option nat * option nat → option nat)
    (plan : rows K (option nat * option nat)) (cols : DataFrame K)
  : DataFrame K :=
  (λ c, (suffixed others suffix c.1, (λ r, take_cell c.2 (side r.2)) <$> plan))
    <$> cols.

(** [pd.merge(left, right, on=on, how=how)]: [KeyError] when a frame has
    no column [on].  The result has the key column (put first here; only
    the labels matter below), the other columns of [left] and the other
    columns of [right]. *)
Definition merge (left right : DataFrame K) (on : string) (h : how)
  : result (DataFrame K) :=
  lkeys ← getitem left on;
  rkeys ← getitem right on;
  let plan := join_plan h lkeys rkeys in
  let lrest := other_columns left on in
  let rrest := other_columns right on in
  Ok ((on, keys plan)
      :: gather (labels rrest) "_x" fst plan lrest
      ++ gather (labels lrest) "_y" snd plan rrest).

(** The two [print] calls, of [len(df_out)] and [len(df_in)], are left
    out. *)
Definition get_diff_entries (df1 df2 : DataFrame K) (column : string)
  : result (list K) :=
  df_out ← merge df1 df2 column Outer;
  df_in ← merge df1 df2 column Inner;
  let df_in := setitem df_in "exists" (text "Y") in
  df_merge ← merge df_out df_in column Outer;
  ex ← getitem df_merge "exists";
  let df_diff := mask_rows df_merge ((λ v, bool_decide (v ≠ text "Y")) <$> ex) in
  col ← getitem df_diff column;
  let diff_list := col in
  Ok diff_list.
End Merge.

(** Cells of text: [None] is NaN.  Text is ordered as Python orders
    strings, and NaN comes last. *)
Definition text_le (a b : option string) : bool :=
  match a, b with
  | Some x, Some y => String.leb x y
  | None, Some _ => false
  | _, None => true
  end.

(** A frame of text columns. *)
Definition text_frame (df : list (string * list string))
  : list (string * list (option string)) :=
  (λ c : string * list string, (c.1, Some <$> c.2)) <$> df.

End Reconcile.

(** ** The diagnostics of [get_diff_entries]

    The two values that the function prints, [len(df_out)] and [len(df_in)],
    and, on the specification side, the rows of a merge that have no partner
    on the right. *)

Module Diagnostics.
Import Reconcile.

Section Counts.
Context {K : Type} `{EqDecision K}.
Variable key_le : K → K → bool.
Variable nan : K.

(** ["total entries"]. *)
Definition total_entries (df1 df2 : DataFrame K) (column : string) : result nat :=
  df_out ← merge key_le nan df1 df2 column Outer;
  Ok (nrows df_out).

(** ["entries in common"]. *)
Definition entries_in_common (df1 df2 : DataFrame K) (column : string)
  : result nat :=
  df_in ← merge key_le nan df1 df2 column Inner;
  Ok (nrows df_in).

Definition unmatched (plan : rows K (option nat * option nat))
  : rows K (option nat * option nat) :=
  filter (λ r, r.2.2 = None) plan.
End Counts.

End Diagnostics.

(** ** The script: resolution of missing values *)

Module Pipeline.

(** A cell of a frame of mixed columns: missing (NaN), a number or text. *)
Inductive cell : Type :=
  | Missing
  | Number (q : Q)
  | Text (s : string).

Abbreviation DataFrame := (list (string * list cell)) (only parsing).
Abbreviation Series := (list (string * cell)) (only parsing).

Definition fill (value : cell) (col : list cell) : list cell :=
  (λ v, match v with Missing => value | _ => v end) <$> col.

(** [df.fillna(value)] with a scalar: every missing cell becomes [value]. *)
Definition fillna_scalar (value : cell) (df : DataFrame) : DataFrame :=
  (λ c, (c.1, fill value c.2)) <$> df.

Definition series_get (s : Series) (label : string) : option cell :=
  (λ ie, ie.2.2) <$> list_find (λ e, e.1 = label) s.

(** [df.fillna(series)]: the missing cells of a column become the entry of
    the series under the column's label; a column without an entry is not
    filled. *)
Definition fillna_series (values : Series) (df : DataFrame) : DataFrame :=
  (λ c, (c.1, match series_get values c.1 with
               | Some value => fill value c.2
               | None => c.2
               end)) <$> df.

(** The numbers of a column, if the column holds nothing but numbers and
    missing cells. *)
Fixpoint numeric (col : list cell) : option (list Q) :=
  match col with
  | [] => Some []
  | Missing :: col' => numeric col'
  | Number q :: col' => cons q <$> numeric col'
  | Text _ :: _ => None
  end.

Definition average (qs : list Q) : cell :=
  match qs with
  | [] => Missing
  | _ => Number (foldr Qplus 0%Q qs / inject_Z (Z.of_nat (length qs)))
  end.

(** [df.mean()]: the mean of the numbers of every numeric column; a column
    that holds text has no mean and is left out of the result. *)
Definition frame_mean (df : DataFrame) : Series :=
  omap (λ c, (λ qs, (c.1, average qs)) <$> numeric c.2) df.

(** Lines 132 to 138: [merged_data] is filled in place, first with zero and
    then with the column means. *)
Definition resolve_missing (merged_data : DataFrame) : DataFrame :=
  let merged_data := fillna_scalar (Number 0) merged_data in
  let column_means := frame_mean merged_data in
  let merged_data := fillna_series column_means merged_data in
  merged_data.

Definition no_missing (df : DataFrame) : Prop :=
  ∀ c v, c ∈ df → v ∈ c.2 → v ≠ Missing.

End Pipeline.

(** ** The script: module-level names

    The statements of the script at module level, each with its line, the
    global names it reads, in the order in which they are evaluated, and
    the global names it binds.  A [def] binds its name and evaluates nothing
    of its body; the functions of the script read no global but the imported
    modules.  What a statement computes is left out: the run below
    tells whether every name is bound when it is read, on a run on which
    no statement fails otherwise. *)

Module Script.

Record stmt : Type := Stmt {
  line : nat;
  reads : list string;
  binds : list string;
}.

Definition script : list stmt := [
  Stmt 1 [] ["np"];
  Stmt 2 [] ["pd"];
  Stmt 3 [] ["KMeans"];
  Stmt 4 [] ["curve_fit"];
  Stmt 5 [] ["plt"];
  Stmt 7 ["pd"] ["renewable_electricity_output"];
  Stmt 8 ["pd"] ["access_to_electricity"];
  Stmt 10 [] ["power_function"];
  Stmt 13 [] ["sigmoid_function"];
  Stmt 16 [] [];
  Stmt 18 [] ["map_corr"];
  Stmt 40 [] ["scaler"];
  Stmt 53 [] ["backscale"];
  Stmt 66 [] ["get_diff_entries"];
  Stmt 84 [] [];
  Stmt 87 [] ["np"];
  Stmt 90 [] ["err_ranges"];
  Stmt 122 ["renewable_electricity_output"] [];
  Stmt 123 ["access_to_electricity"] [];
  Stmt 126 ["renewable_electricity_output"] ["renewable_electricity_data"];
  Stmt 127 ["access_to_electricity"] ["access_to_electricity_data"];
  Stmt 130 ["pd"; "renewable_electricity_data"; "access_to_electricity_data"]
           ["merged_data"];
  Stmt 132 ["merged_data"] [];
  Stmt 135 ["merged_data"] ["column_means"];
  Stmt 138 ["merged_data"; "column_means"] [];
  Stmt 142 ["scaler"; "merged_data"]
           ["normalized_data"; "min_values"; "max_values"];
  Stmt 145 ["KMeans"] ["kmeans"];
  Stmt 146 ["kmeans"; "normalized_data"] ["cluster_labels"];
  Stmt 149 ["cluster_labels"; "merged_data"] [];
  Stmt 153 ["plt"; "x"; "y"; "merged_data"] [];
  Stmt 154 ["plt"] [];
  Stmt 155 ["plt"] [];
  Stmt 156 ["plt"] [];
  Stmt 157 ["plt"] [];
  Stmt 160 ["merged_data"] ["x"];
  Stmt 161 ["merged_data"] ["y"];
  Stmt 164 ["map_corr"; "merged_data"] [];
  Stmt 167 ["curve_fit"; "power_function"; "x"; "y"] ["params_power"; "_"];
  Stmt 170 ["np"; "min"; "x"; "max"; "x"] ["x_pred_power"];
  Stmt 171 ["power_function"; "x_pred_power"; "params_power"] ["y_pred_power"];
  Stmt 174 ["err_ranges"; "x_pred_power"; "power_function"; "params_power"]
           ["lower_power"; "upper_power"];
  Stmt 177 ["plt"; "x"; "y"] [];
  Stmt 178 ["plt"; "x_pred_power"; "y_pred_power"] [];
  Stmt 179 ["plt"; "x_pred_power"; "lower_power"; "upper_power"] [];
  Stmt 180 ["plt"] [];
  Stmt 181 ["plt"] [];
  Stmt 182 ["plt"] [];
  Stmt 183 ["plt"] [];
  Stmt 184 ["plt"] [];
  Stmt 187 ["curve_fit"; "sigmoid_function"; "x"; "y"] ["params_sigmoid"; "_"];
  Stmt 190 ["np"; "min"; "x"; "max"; "x"] ["x_pred_sigmoid"];
  Stmt 191 ["sigmoid_function"; "x_pred_sigmoid"; "params_sigmoid"]
           ["y_pred_sigmoid"];
  Stmt 194 ["err_ranges"; "x_pred_sigmoid"; "sigmoid_function"; "params_sigmoid"]
           ["lower_sigmoid"; "upper_sigmoid"];
  Stmt 197 ["plt"; "x"; "y"] [];
  Stmt 198 ["plt"; "x_pred_sigmoid"; "y_pred_sigmoid"] [];
  Stmt 199 ["plt"; "x_pred_sigmoid"; "lower_sigmoid"; "upper_sigmoid"] [];
  Stmt 200 ["plt"] [];
  Stmt 201 ["plt"] [];
  Stmt 202 ["plt"] [];
  Stmt 203 ["plt"] [];
  Stmt 204 ["plt"] [];
  Stmt 207 ["backscale"; "kmeans"; "min_values"; "max_values"] ["cluster_centers"];
  Stmt 208 ["print"; "cluster_centers"] [];
  Stmt 211 ["get_diff_entries"; "renewable_electricity_output";
            "access_to_electricity"] ["diff_list"];
  Stmt 212 ["print"; "diff_list"] []
].

(** The built-in names the script uses. *)
Definition builtins : gset string := {["print"; "min"; "max"]}.

(** The first name of [names] that is not bound in [env]. *)
Definition unbound (env : gset string) (names : list string) : option string :=
  snd <$> list_find (λ name, name ∉ env) names.

(** Running the statements in order: a read of an unbound name raises
    [NameError] and ends the run at that line. *)
Inductive outcome : Type :=
  | Finished (env : gset string)
  | Failed (at_line : nat) (e : exn).

Fixpoint run (env : gset string) (prog : list stmt) : outcome :=
  match prog with
  | [] => Finished env
  | s :: prog' =>
      match unbound env (reads s) with
      | Some name => Failed (line s) (NameError name)
      | None => run (env ∪ list_to_set (binds s)) prog'
      end
  end.

(** The line of the first statement that binds [name]. *)
Definition first_binding (name : string) (prog : list stmt) : option nat :=
  (λ s, line s.2) <$> list_find (λ s, name ∈ binds s) prog.

(** The lines of the statements that read [name]. *)
Definition readers (name : string) (prog : list stmt) : list nat :=
  line <$> filter (λ s, name ∈ reads s) prog.

End Script.

(** ** The frames of the script

    Lines 122 to 130: the column of the country names is renamed in both
    frames, the columns [Country] and [2018] are selected, and the
    two selections are merged on [Country] with the suffixes
    [_renewable] and [_access]; line 211 reconciles the two renamed
    frames. *)

Module Assemble.
Import Reconcile.

Section Assemble.
Context {K : Type} `{EqDecision K}.
Variable nan : K.

(** [df.rename(columns={old: new}, inplace=True)]: the columns labelled
    [old] get the label [new]; a frame without such a column is left as it
    is. *)
Definition rename (df : DataFrame K) (old new : string) : DataFrame K :=
  (λ c, if decide (c.1 = old) then (new, c.2) else c) <$> df.

(** [df[[l1, ..., ln]]]: the columns under each of the labels, in the
    order of the labels; [KeyError] for a label without a column. *)
Fixpoint getitem_list (df : DataFrame K) (wanted : list string)
  : result (DataFrame K) :=
  match wanted with
  | [] => Ok []
  | label :: wanted' =>
      match filter (λ c, c.1 = label) df with
      | [] => Raise (KeyError label)
      | cols => rest ← getitem_list df wanted'; Ok (cols ++ rest)
      end
  end.

(** [pd.merge(left, right, on=on, suffixes=(suffix_l, suffix_r))], an inner
    merge. *)
Definition merge_suffixes (left right : DataFrame K) (on suffix_l suffix_r : string)
  : result (DataFrame K) :=
  lkeys ← getitem left on;
  rkeys ← getitem right on;
  let plan := (λ r : K * (nat * nat), (r.1, (Some r.2.1, Some r.2.2)))
                <$> merge_inner (key_rows lkeys) (key_rows rkeys) in
  let lrest := other_columns left on in
  let rrest := other_columns right on in
  Ok ((on, keys plan)
      :: gather nan (labels rrest) suffix_l fst plan lrest
      ++ gather nan (labels lrest) suffix_r snd plan rrest).

(** Lines 122 to 130. *)
Definition merged_data_of (renewable_electricity_output access_to_electricity
                           : DataFrame K) : result (DataFrame K) :=
  let renewable_electricity_output :=
    rename renewable_electricity_output "Country Name" "Country" in
  let access_to_electricity :=
    rename access_to_electricity "Country Name" "Country" in
  renewable_electricity_data ←
    getitem_list renewable_electricity_output ["Country"; "2018"];
  access_to_electricity_data ←
    getitem_list access_to_electricity ["Country"; "2018"];
  merge_suffixes renewable_electricity_data access_to_electricity_data
    "Country" "_renewable" "_access".

Variable key_le : K → K → bool.
Variable text : string → K.

(** Lines 122, 123 and 211. *)
Definition diff_list_of (renewable_electricity_output access_to_electricity
                         : DataFrame K) : result (list K) :=
  let renewable_electricity_output :=
    rename renewable_electricity_output "Country Name" "Country" in
  let access_to_electricity :=
    rename access_to_electricity "Country Name" "Country" in
  get_diff_entries key_le nan text renewable_electricity_output
    access_to_electricity "Country".
End Assemble.

End Assemble.

(** * Properties *)

(** ** [err_ranges] *)

Module ErrorsFacts.
Import Errors.

Lemma product_step_app {A} (r1 r2 : list (list A)) pool :
  product_step (r1 ++ r2) pool = product_step r1 pool ++ product_step r2 pool.
Proof. unfold product_step. apply bind_app. Qed.

Lemma product_step_cons {A} (y : A) res pool :
  product_step (cons y <$> res) pool = cons y <$> product_step res pool.
Proof.
  unfold product_step. induction res as [|x res IH]; [done|].
  rewrite fmap_cons, !bind_cons, fmap_app, IH. f_equal.
  rewrite <- list_fmap_compose. done.
Qed.

Lemma foldl_product_step_app {A} (pools : list (list A)) r1 r2 :
  foldl product_step (r1 ++ r2) pools
  = foldl product_step r1 pools ++ foldl product_step r2 pools.
Proof.
  revert r1 r2. induction pools as [|p pools IH]; intros r1 r2; simpl; [done|].
  by rewrite product_step_app, IH.
Qed.

Lemma foldl_product_step_cons {A} (y : A) (pools : list (list A)) res :
  foldl product_step (cons y <$> res) pools
  = cons y <$> foldl product_step res pools.
Proof.
  revert res. induction pools as [|p pools IH]; intros res; simpl; [done|].
  by rewrite product_step_cons, IH.
Qed.

Lemma product_step_unit {A} (pool : list A) :
  product_step [[]] pool = (λ y, [y]) <$> pool.
Proof. unfold product_step. by rewrite bind_singleton. Qed.

Lemma foldl_product_step_nil {A} (pools : list (list A)) :
  foldl product_step [] pools = [].
Proof. induction pools as [|p pools IH]; [done|]. apply IH. Qed.

(** The documented loop agrees with the usual recursive reading: choose the
    first component, then a tuple of the remaining pools. *)
Lemma itertools_product_cons {A} (pool : list A) pools :
  itertools_product (pool :: pools)
  = y ← pool; cons y <$> itertools_product pools.
Proof.
  unfold itertools_product. cbn [foldl]. rewrite product_step_unit.
  induction pool as [|y pool IH].
  - apply foldl_product_step_nil.
  - rewrite bind_cons, <- IH, fmap_cons.
    change ([y] :: ((λ y0 : A, [y0]) <$> pool))
      with ((cons y <$> [[]]) ++ ((λ y0 : A, [y0]) <$> pool)).
    by rewrite foldl_product_step_app, foldl_product_step_cons.
Qed.

Lemma pmix_of_cons p s param sigma :
  pmix_of (p :: param) (s :: sigma)
  = (cons (p - s)%Q <$> pmix_of param sigma)
    ++ (cons (p + s)%Q <$> pmix_of param sigma).
Proof.
  unfold pmix_of, uplow_of. cbn [zip_with]. rewrite fmap_cons.
  rewrite itertools_product_cons.
  change (pool_of ((p - s)%Q, (p + s)%Q)) with [(p - s)%Q; (p + s)%Q].
  by rewrite bind_cons, bind_singleton.
Qed.

(** The tuples enumerated by the code are the sign combinations, in the
    same order. *)
Lemma pmix_of_sign_combinations param sigma :
  length sigma = length param →
  pmix_of param sigma = sign_combinations param sigma.
Proof.
  revert sigma. induction param as [|p param IH]; intros [|s sigma] Hlen;
    simplify_eq/=; [done|].
  rewrite pmix_of_cons, (IH sigma) by done.
  unfold sign_combinations. simpl.
  rewrite fmap_app, <- !list_fmap_compose. done.
Qed.

Lemma length_all_signs n : length (all_signs n) = 2 ^ n.
Proof.
  induction n as [|n IH]; simpl; [done|].
  rewrite length_app, !length_fmap, IH. lia.
Qed.

Lemma length_perturb param sigma signs :
  length sigma = length param → length signs = length param →
  length (perturb param sigma signs) = length param.
Proof.
  revert sigma signs. induction param as [|p param IH];
    intros [|s sigma] [|b signs] ??; simplify_eq/=; [done|].
  f_equal. by apply IH.
Qed.

Lemma all_signs_length n signs : signs ∈ all_signs n → length signs = n.
Proof.
  revert signs. induction n as [|n IH]; intros signs; simpl.
  - intros ->%list_elem_of_singleton. done.
  - rewrite elem_of_app, !list_elem_of_fmap.
    intros [(t & -> & Ht)|(t & -> & Ht)]; simpl; f_equal; by apply IH.
Qed.

Lemma sign_combinations_length param sigma q :
  length sigma = length param →
  q ∈ sign_combinations param sigma → length q = length param.
Proof.
  intros Hlen (signs & -> & Hs)%list_elem_of_fmap.
  apply length_perturb; [done|]. by apply all_signs_length.
Qed.

Lemma Qmin_cases (a b : Q) : Qmin a b = a ∨ Qmin a b = b.
Proof. unfold Qmin, GenericMinMax.gmin. destruct (a ?= b)%Q; auto. Qed.

Lemma Qmax_cases (a b : Q) : Qmax a b = a ∨ Qmax a b = b.
Proof. unfold Qmax, GenericMinMax.gmax. destruct (a ?= b)%Q; auto. Qed.

Lemma foldl_Qmin_le a l : (foldl Qmin a l <= a)%Q.
Proof.
  revert a. induction l as [|y l IH]; intros a; simpl; [apply Qle_refl|].
  eapply Qle_trans; [apply IH | apply Q.le_min_l].
Qed.

Lemma foldl_Qmax_ge a l : (a <= foldl Qmax a l)%Q.
Proof.
  revert a. induction l as [|y l IH]; intros a; simpl; [apply Qle_refl|].
  eapply Qle_trans; [apply Q.le_max_l | apply IH].
Qed.

Lemma foldl_Qmin_elem a l : foldl Qmin a l ∈ a :: l.
Proof.
  revert a. induction l as [|y l IH]; intros a; simpl; [set_solver|].
  specialize (IH (Qmin a y)). apply elem_of_cons in IH.
  destruct IH as [Heq|IH]; [|set_solver].
  rewrite Heq. destruct (Qmin_cases a y) as [->| ->]; set_solver.
Qed.

Lemma foldl_Qmax_elem a l : foldl Qmax a l ∈ a :: l.
Proof.
  revert a. induction l as [|y l IH]; intros a; simpl; [set_solver|].
  specialize (IH (Qmax a y)). apply elem_of_cons in IH.
  destruct IH as [Heq|IH]; [|set_solver].
  rewrite Heq. destruct (Qmax_cases a y) as [->| ->]; set_solver.
Qed.

Lemma foldl_Qmin_lower a l w : w ∈ a :: l → (foldl Qmin a l <= w)%Q.
Proof.
  revert a. induction l as [|y l IH]; intros a; simpl.
  - intros ->%list_elem_of_singleton. apply Qle_refl.
  - intros [->|[->|Hw]%elem_of_cons]%elem_of_cons.
    + eapply Qle_trans; [apply foldl_Qmin_le | apply Q.le_min_l].
    + eapply Qle_trans; [apply foldl_Qmin_le | apply Q.le_min_r].
    + apply IH. apply elem_of_cons. by right.
Qed.

Lemma foldl_Qmax_upper a l w : w ∈ a :: l → (w <= foldl Qmax a l)%Q.
Proof.
  revert a. induction l as [|y l IH]; intros a; simpl.
  - intros ->%list_elem_of_singleton. apply Qle_refl.
  - intros [->|[->|Hw]%elem_of_cons]%elem_of_cons.
    + eapply Qle_trans; [apply Q.le_max_l | apply foldl_Qmax_ge].
    + eapply Qle_trans; [apply Q.le_max_r | apply foldl_Qmax_ge].
    + apply IH. apply elem_of_cons. by right.
Qed.

(** Folding [np.minimum] or [np.maximum] over floats: NaN once NaN has been
    met, the fold over the numbers otherwise. *)
Section FloatFold.
Variable f : Q → Q → Q.

Lemma foldl_lift2_NaN (l : list float) : foldl (lift2 f) NaN l = NaN.
Proof. induction l as [|w l IH]; [done|]. apply IH. Qed.

Lemma foldl_lift2_has_NaN (a : float) (l : list float) :
  NaN ∈ a :: l → foldl (lift2 f) a l = NaN.
Proof.
  revert a. induction l as [|w l IH]; intros a.
  - by intros <-%list_elem_of_singleton.
  - intros [<-|Hin]%elem_of_cons; [apply foldl_lift2_NaN|].
    cbn [foldl]. apply IH. apply elem_of_cons in Hin as [<-|Hin].
    + destruct a; apply list_elem_of_here.
    + by apply list_elem_of_further.
Qed.

Lemma foldl_lift2_Num (q : Q) (qs : list Q) :
  foldl (lift2 f) (Num q) (Num <$> qs) = Num (foldl f q qs).
Proof.
  revert q. induction qs as [|r qs IH]; intros q; [done|]. apply IH.
Qed.
End FloatFold.

Lemma numbers_of_floats (l : list float) : NaN ∉ l → ∃ qs, l = Num <$> qs.
Proof.
  induction l as [|w l IH]; intros Hno; [by exists []|].
  destruct IH as [qs ->]; [intros Hin; apply Hno; by apply list_elem_of_further|].
  destruct w as [|q]; [exfalso; apply Hno; apply list_elem_of_here|].
  by exists (q :: qs).
Qed.

Lemma foldl_fmin_is_minimum (a : float) (l : list float) :
  is_minimum (foldl fmin a l) (a :: l).
Proof.
  split; [apply foldl_lift2_has_NaN|]. intros Hno.
  destruct (numbers_of_floats _ Hno) as [[|q qs] Heq]; simplify_eq/=.
  unfold fmin. rewrite foldl_lift2_Num. split.
  - change (Num (foldl Qmin q qs) ∈ Num <$> (q :: qs)).
    apply list_elem_of_fmap_2, foldl_Qmin_elem.
  - intros w Hw. change (w ∈ Num <$> (q :: qs)) in Hw.
    apply list_elem_of_fmap in Hw as (r & -> & Hr). by apply foldl_Qmin_lower.
Qed.

Lemma foldl_fmax_is_maximum (a : float) (l : list float) :
  is_maximum (foldl fmax a l) (a :: l).
Proof.
  split; [apply foldl_lift2_has_NaN|]. intros Hno.
  destruct (numbers_of_floats _ Hno) as [[|q qs] Heq]; simplify_eq/=.
  unfold fmax. rewrite foldl_lift2_Num. split.
  - change (Num (foldl Qmax q qs) ∈ Num <$> (q :: qs)).
    apply list_elem_of_fmap_2, foldl_Qmax_elem.
  - intros w Hw. change (w ∈ Num <$> (q :: qs)) in Hw.
    apply list_elem_of_fmap in Hw as (r & -> & Hr). by apply foldl_Qmax_upper.
Qed.

Lemma broadcast2_map f (L G : Q → float) (x : list Q) :
  broadcast2 f (map L x) (map G x) = Ok (map (λ xj, f (L xj) (G xj)) x).
Proof.
  unfold broadcast2. rewrite decide_True by (by rewrite !length_map).
  f_equal. induction x as [|xj x IH]; simpl; [done|]. by rewrite IH.
Qed.

Section Elementwise.
Variable func : callable.
Variable n : nat.
Variable g : list Q → Q → float.
Hypothesis func_elementwise : elementwise n g func.

(** The second loop of [err_ranges], in closed form. *)
Lemma err_ranges_loop (x : list Q) (ps : list (list Q)) :
  (∀ p, p ∈ ps → length p = n) →
  ∀ L U : Q → float,
  for_each ps (map L x, map U x) (λ lu p,
    y ← func x p;
    lower' ← np_minimum lu.1 y;
    upper' ← np_maximum lu.2 y;
    Ok (lower', upper'))
  = Ok (map (λ xj, foldl fmin (L xj) ((λ q, g q xj) <$> ps)) x,
        map (λ xj, foldl fmax (U xj) ((λ q, g q xj) <$> ps)) x).
Proof.
  induction ps as [|p ps IH]; intros Hps L U; [done|].
  cbn [for_each]. rewrite func_elementwise by (apply Hps; set_solver).
  cbn [mbind result_bind fst snd]. unfold np_minimum, np_maximum.
  rewrite !broadcast2_map. cbn [mbind result_bind].
  rewrite IH by (intros; apply Hps; set_solver). done.
Qed.

Lemma err_ranges_closed_form (x param sigma : list Q) :
  length param = n → length sigma = n →
  err_ranges x func param sigma
  = Ok (map (λ xj, foldl fmin (g param xj)
               ((λ q, g q xj) <$> sign_combinations param sigma)) x,
        map (λ xj, foldl fmax (g param xj)
               ((λ q, g q xj) <$> sign_combinations param sigma)) x).
Proof.
  intros Hp Hs. unfold err_ranges.
  rewrite func_elementwise by done. cbn [mbind result_bind].
  rewrite pmix_of_sign_combinations by congruence.
  apply err_ranges_loop. intros p Hin.
  rewrite (sign_combinations_length param sigma) by (congruence || done). done.
Qed.
End Elementwise.

Lemma star_call_elementwise f : elementwise 2 (unpack2 f) (star_call f).
Proof.
  intros x p Hp. destruct p as [|a [|b [|c p]]]; simplify_eq/=. done.
Qed.

(** C2. For a model function of [n] parameters, [err_ranges] succeeds and
    [lower[j]] is the minimum, [upper[j]] the maximum, of the baseline value
    and the model's values under all [2^n] sign combinations [p_i ± s_i]
    (which are exactly the tuples the code enumerates) at the query point
    [x[j]].  Minimum and maximum are those of [np.minimum] and
    [np.maximum]. *)
Theorem err_ranges_min_max_over_sign_combinations
    (func : callable) (n : nat) (g : list Q → Q → float) (x param sigma : list Q) :
  elementwise n g func → length param = n → length sigma = n →
  ∃ lower upper,
    err_ranges x func param sigma = Ok (lower, upper)
    ∧ pmix_of param sigma = sign_combinations param sigma
    ∧ length (sign_combinations param sigma) = 2 ^ n
    ∧ ∀ j xj, x !! j = Some xj →
        ∃ l u, lower !! j = Some l ∧ upper !! j = Some u
               ∧ is_minimum l (curve_values g param sigma xj)
               ∧ is_maximum u (curve_values g param sigma xj).
Proof.
  intros Hf Hp Hs. eexists _, _.
  split; [by apply (err_ranges_closed_form _ _ _ Hf)|].
  split; [apply pmix_of_sign_combinations; congruence|].
  split.
  { unfold sign_combinations. by rewrite length_fmap, length_all_signs, Hp. }
  intros j xj Hj. eexists _, _.
  rewrite !list_lookup_fmap, Hj. simpl.
  split; [done|]. split; [done|]. unfold curve_values.
  split; [apply foldl_fmin_is_minimum | apply foldl_fmax_is_maximum].
Qed.

Lemma err_ranges_min_max_over_sign_combinations_witness :
  ∃ lower upper,
    err_ranges [1%Q; 4%Q] (star_call (power_function (λ x b, x))) [2%Q; 1%Q]
      [(1 # 10)%Q; (2 # 10)%Q] = Ok (lower, upper)
    ∧ pmix_of [2%Q; 1%Q] [(1 # 10)%Q; (2 # 10)%Q]
      = sign_combinations [2%Q; 1%Q] [(1 # 10)%Q; (2 # 10)%Q]
    ∧ length (sign_combinations [2%Q; 1%Q] [(1 # 10)%Q; (2 # 10)%Q]) = 2 ^ 2
    ∧ ∀ j xj, [1%Q; 4%Q] !! j = Some xj →
        ∃ l u, lower !! j = Some l ∧ upper !! j = Some u
               ∧ is_minimum l (curve_values (unpack2 (power_function (λ x b, x)))
                                 [2%Q; 1%Q] [(1 # 10)%Q; (2 # 10)%Q] xj)
               ∧ is_maximum u (curve_values (unpack2 (power_function (λ x b, x)))
                                 [2%Q; 1%Q] [(1 # 10)%Q; (2 # 10)%Q] xj).
Proof.
  apply (err_ranges_min_max_over_sign_combinations
           (star_call (power_function (λ x b, x))) 2
           (unpack2 (power_function (λ x b, x)))).
  - apply star_call_elementwise.
  - reflexivity.
  - reflexivity.
Defined.

(** C1, as the code has it.  For a model function of [n] parameters, a
    parameter vector and a sigma vector of that length, [err_ranges] returns
    [lower] and [upper] of the length of [x].  At a query point where none
    of the values of the model, under the parameters and under their sign
    combinations, is NaN, [lower[j] <= model(x[j], *param) <= upper[j]].
    Where one of these values is NaN, [lower[j]] and [upper[j]] are NaN. *)
Theorem err_ranges_encloses_model_unless_nan
    (func : callable) (n : nat) (g : list Q → Q → float) (x param sigma : list Q) :
  elementwise n g func → length param = n → length sigma = n →
  ∃ lower upper,
    err_ranges x func param sigma = Ok (lower, upper)
    ∧ length lower = length x ∧ length upper = length x
    ∧ ∀ j xj, x !! j = Some xj →
        ∃ l u, lower !! j = Some l ∧ upper !! j = Some u
               ∧ (NaN ∉ curve_values g param sigma xj →
                  fle l (g param xj) ∧ fle (g param xj) u)
               ∧ (NaN ∈ curve_values g param sigma xj → l = NaN ∧ u = NaN).
Proof.
  intros Hf Hp Hs. eexists _, _.
  split; [by apply (err_ranges_closed_form _ _ _ Hf)|].
  rewrite !length_map. split; [done|]. split; [done|].
  intros j xj Hj. eexists _, _.
  rewrite !list_lookup_fmap, Hj. cbn [fmap option_fmap option_map].
  split; [done|]. split; [done|].
  destruct (foldl_fmin_is_minimum (g param xj)
              ((λ q, g q xj) <$> sign_combinations param sigma))
    as [Hmin_nan Hmin].
  destruct (foldl_fmax_is_maximum (g param xj)
              ((λ q, g q xj) <$> sign_combinations param sigma))
    as [Hmax_nan Hmax].
  unfold curve_values. split.
  - intros Hno. destruct (Hmin Hno) as [_ Hlow]. destruct (Hmax Hno) as [_ Hupp].
    split; [apply Hlow|apply Hupp]; apply list_elem_of_here.
  - intros Hnan. split; [by apply Hmin_nan|by apply Hmax_nan].
Qed.

Lemma err_ranges_encloses_model_unless_nan_witness :
  ∃ lower upper,
    err_ranges [1%Q; 4%Q] (star_call (λ x a b, Num (a * x + b))) [2%Q; 1%Q]
      [(1 # 10)%Q; (2 # 10)%Q] = Ok (lower, upper)
    ∧ length lower = length [1%Q; 4%Q] ∧ length upper = length [1%Q; 4%Q]
    ∧ ∀ j xj, [1%Q; 4%Q] !! j = Some xj →
        ∃ l u, lower !! j = Some l ∧ upper !! j = Some u
               ∧ (NaN ∉ curve_values (unpack2 (λ x a b, Num (a * x + b)))
                          [2%Q; 1%Q] [(1 # 10)%Q; (2 # 10)%Q] xj →
                  fle l (unpack2 (λ x a b, Num (a * x + b)) [2%Q; 1%Q] xj)
                  ∧ fle (unpack2 (λ x a b, Num (a * x + b)) [2%Q; 1%Q] xj) u)
               ∧ (NaN ∈ curve_values (unpack2 (λ x a b, Num (a * x + b)))
                          [2%Q; 1%Q] [(1 # 10)%Q; (2 # 10)%Q] xj →
                  l = NaN ∧ u = NaN).
Proof.
  apply (err_ranges_encloses_model_unless_nan
           (star_call (λ x a b, Num (a * x + b))) 2
           (unpack2 (λ x a b, Num (a * x + b)))).
  - apply star_call_elementwise.
  - reflexivity.
  - reflexivity.
Defined.

(** C1 fails at a negative query point of the power model.  With the
    parameters (1, 1) the model's value at -1 is the number -1, while the
    exponents 0.8 and 1.2 of the sign combinations make [x**b] NaN:
    [lower] and [upper] are NaN there, and no comparison with NaN holds. *)
Lemma err_ranges_power_negative_base_counterexample :
  err_ranges [(-1)%Q] (star_call (power_function (λ x b, x))) [1%Q; 1%Q]
    [(1 # 10)%Q; (2 # 10)%Q] = Ok ([NaN], [NaN])
  ∧ star_call (power_function (λ x b, x)) [(-1)%Q] [1%Q; 1%Q] = Ok [Num (-1)]
  ∧ ¬ fle NaN (Num (-1)) ∧ ¬ fle (Num (-1)) NaN.
Proof. repeat split; try reflexivity; intros []. Qed.

End ErrorsFacts.

(** ** [scaler] and [backscale] *)

Module ClusterToolsFacts.
Import ClusterTools.

Section Arithmetic.
Context {F : Type} `{Arith F}.

(** The normalised frame, column by column. *)
Lemma scaler_lookup (df : DataFrame F) (i : nat) (col : list F) :
  df !! i = Some col →
  (scaler df).1.1 !! i
  = Some (normalised (column_min col) (column_max col) <$> col)
  ∧ (scaler df).1.2 !! i = Some (column_min col)
  ∧ (scaler df).2 !! i = Some (column_max col).
Proof.
  intros Hi. unfold scaler, frame_series, series_series, frame_min, frame_max.
  cbn [fst snd].
  rewrite !lookup_zip_with, !list_lookup_fmap, Hi. cbn.
  split; [|done]. f_equal. rewrite <- list_fmap_compose. done.
Qed.

Lemma length_scaler (df : DataFrame F) :
  length (scaler df).1.1 = length df
  ∧ length (scaler df).1.2 = length df
  ∧ length (scaler df).2 = length df.
Proof.
  unfold scaler, frame_series, series_series, frame_min, frame_max.
  cbn [fst snd]. rewrite !length_zip_with, !length_fmap. lia.
Qed.

Lemma for_range_app (l1 l2 : list nat) (body : nat → M F unit) (h : heap F) :
  for_range (l1 ++ l2) body h
  = match for_range l1 body h with
    | (Ok _, h') => for_range l2 body h'
    | (Raise e, h') => (Raise e, h')
    end.
Proof.
  revert h. induction l1 as [|i l1 IH]; intros h; [done|].
  cbn [app for_range]. unfold bind.
  destruct (body i h) as [[[]|e] h']; [|done].
  apply IH.
Qed.

Lemma unscale_columns_nil (cols : ndarray F) (maxima : list F) :
  unscale_columns cols [] maxima = cols.
Proof. by destruct cols. Qed.

Lemma length_unscale_columns (cols : ndarray F) (minima maxima : list F) :
  length (unscale_columns cols minima maxima) = length cols.
Proof.
  revert minima maxima. induction cols as [|c cols IH];
    intros [|mn minima] [|mx maxima]; simpl; try done.
  by rewrite IH.
Qed.

(** Columns beyond the scale record are not touched. *)
Lemma unscale_columns_lookup_ge (cols : ndarray F) (minima maxima : list F) i :
  length minima ≤ i → unscale_columns cols minima maxima !! i = cols !! i.
Proof.
  revert cols minima maxima.
  induction i as [|i IH]; intros [|c cols] [|mn minima] [|mx maxima] Hi;
    simpl in *; try done; try lia.
  apply IH. lia.
Qed.

Lemma unscale_columns_lookup (cols : ndarray F) (minima maxima : list F)
    i col mn mx :
  cols !! i = Some col → minima !! i = Some mn → maxima !! i = Some mx →
  unscale_columns cols minima maxima !! i = Some (unscale mn mx col).
Proof.
  revert cols minima maxima.
  induction i as [|i IH]; intros [|c cols] [|m minima] [|x maxima] ???;
    simplify_eq/=; [done|]. by apply IH.
Qed.

Lemma unscale_columns_take_S (n : nat) (cols : ndarray F) (minima maxima : list F)
    col mn mx :
  cols !! n = Some col → minima !! n = Some mn → maxima !! n = Some mx →
  <[n := unscale mn mx col]> (unscale_columns cols (take n minima) (take n maxima))
  = unscale_columns cols (take (S n) minima) (take (S n) maxima).
Proof.
  revert cols minima maxima.
  induction n as [|n IH]; intros [|c cols] [|m minima] [|x maxima] ???;
    simplify_eq/=.
  - by rewrite unscale_columns_nil.
  - f_equal. by apply IH.
Qed.

Lemma unscale_columns_take (n : nat) (cols : ndarray F) (minima maxima : list F) :
  length cols ≤ n ∨ length minima ≤ n →
  unscale_columns cols (take n minima) (take n maxima)
  = unscale_columns cols minima maxima.
Proof.
  revert cols minima maxima.
  induction n as [|n IH]; intros [|c cols] [|m minima] [|x maxima] Hn;
    simpl in *; try done; try lia.
  f_equal. apply IH. lia.
Qed.

Section Backscale.
Variable arr : loc.
Variables minima maxima : list F.

Let body : nat → M F unit := λ i,
  col ←ₘ get_column arr i;
  mx ←ₘ item maxima i;
  mn ←ₘ item minima i;
  set_column arr i ((λ v, add (mul v (sub mx mn)) mn) <$> col).

Lemma backscale_body_step (h : heap F) (cols : ndarray F) i col mn mx :
  h !! arr = Some cols → cols !! i = Some col →
  maxima !! i = Some mx → minima !! i = Some mn →
  body i h = (Ok (), <[arr := <[i := unscale mn mx col]> cols]> h).
Proof.
  intros Harr Hcol Hmx Hmn. unfold body, bind, get_column, item, set_column, deref.
  rewrite Harr. cbn [default from_option id]. rewrite Hcol, Hmx, Hmn. cbn [ret].
  rewrite Harr. cbn [default from_option id].
  rewrite decide_True by (by eapply lookup_lt_Some). done.
Qed.

Lemma backscale_body_index_error (h : heap F) (cols : ndarray F) i :
  h !! arr = Some cols → length cols ≤ i →
  body i h = (Raise IndexError, h).
Proof.
  intros Harr Hi. unfold body, bind, get_column, deref.
  rewrite Harr. cbn [default from_option id]. by rewrite lookup_ge_None_2.
Qed.

(** The state after the first [n] rounds of the loop. *)
Lemma backscale_loop (n : nat) (h : heap F) (cols : ndarray F) :
  h !! arr = Some cols →
  n ≤ length cols → n ≤ length minima → n ≤ length maxima →
  for_range (seq 0 n) body h
  = (Ok (), <[arr := unscale_columns cols (take n minima) (take n maxima)]> h).
Proof.
  intros Harr.
  induction n as [|n IH]; intros Hc Hmn Hmx.
  - cbn [seq for_range take]. rewrite unscale_columns_nil.
    unfold ret. by rewrite insert_id.
  - rewrite seq_S, for_range_app, IH by lia. cbn [for_range plus].
    destruct (lookup_lt_is_Some_2 cols n) as [col Hcol]; [lia|].
    destruct (lookup_lt_is_Some_2 minima n) as [mn Hn]; [lia|].
    destruct (lookup_lt_is_Some_2 maxima n) as [mx Hx]; [lia|].
    unfold bind at 1.
    rewrite (backscale_body_step _
               (unscale_columns cols (take n minima) (take n maxima))
               n col mn mx); try done.
    + cbn [ret]. rewrite insert_insert_eq.
      by rewrite (unscale_columns_take_S n cols minima maxima col mn mx).
    + by rewrite lookup_insert_eq.
    + rewrite unscale_columns_lookup_ge; [done|]. rewrite length_take. lia.
Qed.

(** With at least as many columns as the scale record has entries,
    [backscale] succeeds, returns the reference it was given, and leaves
    the back-scaled columns in the array that reference points to. *)
Lemma backscale_closed_form (h : heap F) (cols : ndarray F) :
  h !! arr = Some cols →
  length minima ≤ length cols → length minima ≤ length maxima →
  backscale arr minima maxima h
  = (Ok arr, <[arr := unscale_columns cols minima maxima]> h).
Proof.
  intros Harr Hc Hx. unfold backscale, to_numpy. unfold bind at 1.
  fold body. rewrite (backscale_loop (length minima) h cols) by (done || lia).
  cbn [ret]. rewrite unscale_columns_take by lia. done.
Qed.

(** With fewer columns, the loop runs through all columns of the array
    and then raises at the first index that the array lacks. *)
Lemma backscale_index_error (h : heap F) (cols : ndarray F) :
  h !! arr = Some cols →
  length cols < length minima → length cols ≤ length maxima →
  backscale arr minima maxima h
  = (Raise IndexError, <[arr := unscale_columns cols minima maxima]> h).
Proof.
  intros Harr Hc Hx. unfold backscale, to_numpy. unfold bind at 1. fold body.
  replace (length minima)
    with (length cols + S (length minima - S (length cols))) by lia.
  rewrite seq_app, for_range_app.
  rewrite (backscale_loop (length cols) h cols) by (done || lia).
  cbn [seq for_range plus]. unfold bind at 1.
  rewrite (backscale_body_index_error _
             (unscale_columns cols (take (length cols) minima)
                (take (length cols) maxima))).
  - rewrite unscale_columns_take by lia. done.
  - by rewrite lookup_insert_eq.
  - by rewrite length_unscale_columns.
Qed.
End Backscale.

(** C3, as the code has it.  Back-scaling the normalised values of a frame
    with the minima and maxima that [scaler] recorded succeeds, in every
    arithmetic, and leaves in the place of every cell [v] the value
    [((v - min) / (max - min)) * (max - min) + min], computed in that
    arithmetic. *)
Theorem backscale_scaler_round_trip_value (df : DataFrame F) (h : heap F)
    (arr : loc) :
  ∃ out,
    backscale arr (scaler df).1.2 (scaler df).2
      (<[arr := to_numpy (scaler df).1.1]> h)
    = (Ok arr, <[arr := out]> h)
    ∧ length out = length df
    ∧ ∀ i col, df !! i = Some col →
        (scaler df).1.2 !! i = Some (column_min col)
        ∧ (scaler df).2 !! i = Some (column_max col)
        ∧ ∃ ocol, out !! i = Some ocol ∧ length ocol = length col
            ∧ ∀ j v, col !! j = Some v →
                ocol !! j = Some (round_trip (column_min col) (column_max col) v).
Proof.
  destruct (length_scaler df) as (Hn & Hmin & Hmax).
  exists (unscale_columns (scaler df).1.1 (scaler df).1.2 (scaler df).2).
  split.
  { rewrite (backscale_closed_form arr _ _ _ (scaler df).1.1).
    - by rewrite insert_insert_eq.
    - by rewrite lookup_insert_eq.
    - lia.
    - lia. }
  split; [by rewrite length_unscale_columns|].
  intros i col Hi.
  destruct (scaler_lookup df i col Hi) as (Hnorm & Hmn & Hmx).
  split; [done|]. split; [done|]. eexists. split.
  { eapply unscale_columns_lookup; [exact Hnorm|exact Hmn|exact Hmx]. }
  unfold unscale. rewrite !length_fmap. split; [done|].
  intros j v Hj. rewrite !list_lookup_fmap, Hj. done.
Qed.

(** C5, as the code has it.  [backscale] compares no column counts.  With
    fewer columns in the array than entries in the scale record it raises
    [IndexError] at the first column the array lacks, after it has rescaled
    every column of the array; with more columns it returns normally, the
    leading columns rescaled and the remaining ones as they were. *)
Theorem backscale_column_count_mismatch (arr : loc) (minima maxima : Series F)
    (h : heap F) (cols : ndarray F) :
  h !! arr = Some cols → length maxima = length minima →
  (length cols < length minima →
   backscale arr minima maxima h
   = (Raise IndexError, <[arr := unscale_columns cols minima maxima]> h))
  ∧ (length minima < length cols →
     backscale arr minima maxima h
     = (Ok arr, <[arr := unscale_columns cols minima maxima]> h)
     ∧ ∀ i, length minima ≤ i →
         unscale_columns cols minima maxima !! i = cols !! i).
Proof.
  intros Harr Hlen. split; intros Hc.
  - apply backscale_index_error; [done|lia..].
  - split; [apply backscale_closed_form; [done|lia..]|].
    intros i Hi. by apply unscale_columns_lookup_ge.
Qed.

(** C9, as the code has it.  [backscale] assigns the back-scaled columns
    into the array object it is given and returns that same reference:
    after the call the array holds the back-scaled columns, and every other
    array of the store is as it was. *)
Theorem backscale_in_place (arr : loc) (minima maxima : Series F)
    (h : heap F) (cols : ndarray F) :
  h !! arr = Some cols →
  length minima ≤ length cols → length minima ≤ length maxima →
  ∃ h',
    backscale arr minima maxima h = (Ok arr, h')
    ∧ h' !! arr = Some (unscale_columns cols minima maxima)
    ∧ ∀ l, l ≠ arr → h' !! l = h !! l.
Proof.
  intros Harr Hc Hx. eexists. split; [by apply backscale_closed_form|].
  split; [by rewrite lookup_insert_eq|].
  intros l Hl. by rewrite lookup_insert_ne.
Qed.
End Arithmetic.

(** In the arithmetic of the rationals the round trip gives the cell back,
    in a column whose maximum differs from its minimum. *)
Lemma round_trip_exact (mn mx : Q) (c : float) :
  ¬ (mn == mx)%Q → feq (round_trip (Num mn) (Num mx) c) c.
Proof.
  intros Hne. destruct c as [|v]; [done|]. cbn.
  destruct (Qeq_bool (mx - mn) 0) eqn:E.
  { apply Qeq_bool_iff in E. exfalso. apply Hne. lra. }
  cbn. apply Qeq_bool_neq in E. field. done.
Qed.

(** C3 fails in float64.  The column [11.2, 54.1] is normalised to [0, 1],
    and 1 comes back as [1 * (54.1 - 11.2) + 11.2], which float64 rounds to
    54.10000000000001, the float next above 54.1. *)
Lemma backscale_scaler_rounding_counterexample :
  scaler [[11.2%float; 54.1%float]]
  = ([[0%float; 1%float]], [11.2%float], [54.1%float])
  ∧ backscale 0 [11.2%float] [54.1%float] {[0 := [[0%float; 1%float]]]}
    = (Ok 0, {[0 := [[11.2%float; 54.10000000000001%float]]]})
  ∧ PrimFloat.ltb 54.1%float 54.10000000000001%float = true.
Proof. split; [reflexivity|]. split; reflexivity. Qed.

(** C4 fails on the code.  The cells of a constant column are normalised
    to [0 / 0], which is NaN, and NaN is not in the range from 0 to 1: no
    comparison with NaN holds.  So is the maximum of a column whose range
    [max - min] overflows: infinity divided by infinity. *)
Theorem scaler_constant_column_is_nan :
  scaler [[5%float; 5%float]]
  = ([[PrimFloat.nan; PrimFloat.nan]], [5%float], [5%float])
  ∧ PrimFloat.leb 0%float PrimFloat.nan = false
  ∧ PrimFloat.leb PrimFloat.nan 1%float = false
  ∧ scaler [[(-1e308)%float; 1e308%float]]
    = ([[0%float; PrimFloat.nan]], [(-1e308)%float], [1e308%float]).
Proof. repeat split; reflexivity. Qed.

Lemma backscale_column_count_mismatch_witness :
  (length [[Num 0]; [Num 1]] < length [Num 10] →
   backscale 0 [Num 10] [Num 20] {[0 := [[Num 0]; [Num 1]]]}
   = (Raise IndexError,
      <[0 := unscale_columns [[Num 0]; [Num 1]] [Num 10] [Num 20]]>
        {[0 := [[Num 0]; [Num 1]]]}))
  ∧ (length [Num 10] < length [[Num 0]; [Num 1]] →
     backscale 0 [Num 10] [Num 20] {[0 := [[Num 0]; [Num 1]]]}
     = (Ok 0, <[0 := unscale_columns [[Num 0]; [Num 1]] [Num 10] [Num 20]]>
                {[0 := [[Num 0]; [Num 1]]]})
     ∧ ∀ i, length [Num 10] ≤ i →
         unscale_columns [[Num 0]; [Num 1]] [Num 10] [Num 20] !! i
         = [[Num 0]; [Num 1]] !! i).
Proof.
  apply (backscale_column_count_mismatch 0 [Num 10] [Num 20]
           {[0 := [[Num 0]; [Num 1]]]} [[Num 0]; [Num 1]]); reflexivity.
Defined.

(** C5 fails: an array of two columns and a scale record of one column have
    different column counts, and [backscale] returns without an error. *)
Lemma backscale_extra_column_counterexample :
  length [[Num 0]; [Num 1]] ≠ length [Num 10]
  ∧ (backscale 0 [Num 10] [Num 20] {[0 := [[Num 0]; [Num 1]]]}).1 = Ok 0.
Proof. split; [by intros [=]|]. reflexivity. Qed.

Lemma backscale_in_place_witness :
  ∃ h',
    backscale 0 [Num 10] [Num 20] {[0 := [[Num 0; Num 1]]]} = (Ok 0, h')
    ∧ h' !! 0 = Some (unscale_columns [[Num 0; Num 1]] [Num 10] [Num 20])
    ∧ ∀ l, l ≠ 0 → h' !! l = ({[0 := [[Num 0; Num 1]]]} : heap float) !! l.
Proof.
  apply (backscale_in_place 0 [Num 10] [Num 20] {[0 := [[Num 0; Num 1]]]}
           [[Num 0; Num 1]]); [reflexivity | simpl; lia | simpl; lia].
Defined.

(** C9 fails: the array of centroids [[0], [1]] (one column) passed to
    [backscale] holds 10 and 20 after the call. *)
Lemma backscale_mutates_argument_counterexample :
  ({[0 := [[Num 0; Num 1]]]} : heap float) !! 0 = Some [[Num 0; Num 1]]
  ∧ (backscale 0 [Num 10] [Num 20] {[0 := [[Num 0; Num 1]]]}).1 = Ok 0
  ∧ (backscale 0 [Num 10] [Num 20] {[0 := [[Num 0; Num 1]]]}).2 !! 0
    = Some [[Num 10; Num 20]]
  ∧ ¬ feq (Num 10) (Num 0) ∧ ¬ feq (Num 20) (Num 1).
Proof.
  split; [reflexivity|]. split; [reflexivity|]. split; [reflexivity|].
  split; intros Heq; discriminate Heq.
Qed.

End ClusterToolsFacts.

(** ** [get_diff_entries] *)

Module ReconcileFacts.
Import Reconcile Diagnostics.

Section Merge.
Context {K : Type} `{EqDecision K}.
Variable key_le : K → K → bool.

Lemma insert_row_Permutation {P} (r : K * P) (t : rows K P) :
  insert_row key_le r t ≡ₚ r :: t.
Proof.
  induction t as [|r' t IH]; simpl; [done|].
  destruct (key_le r.1 r'.1); [done|]. rewrite IH. apply Permutation_swap.
Qed.

Lemma sort_by_key_Permutation {P} (t : rows K P) : sort_by_key key_le t ≡ₚ t.
Proof.
  induction t as [|r t IH]; simpl; [done|].
  rewrite insert_row_Permutation. by rewrite IH.
Qed.

Lemma elem_of_keys {P} (k : K) (t : rows K P) : k ∈ keys t ↔ ∃ p, (k, p) ∈ t.
Proof.
  unfold keys. rewrite list_elem_of_fmap. split.
  - intros ([k' p] & -> & Hin). by exists p.
  - intros (p & Hin). by exists (k, p).
Qed.

Lemma elem_of_matches {B} (k : K) (b : B) (right : rows K B) :
  b ∈ matches k right ↔ (k, b) ∈ right.
Proof.
  unfold matches. rewrite list_elem_of_omap. split.
  - intros ([k' b'] & Hin & Hm). simpl in Hm. case_decide; simplify_eq. done.
  - intros Hin. exists (k, b). split; [done|]. simpl. by rewrite decide_True.
Qed.

Lemma matches_nil {B} (k : K) (right : rows K B) :
  matches k right = [] ↔ k ∉ keys right.
Proof.
  rewrite elem_of_keys. split.
  - intros Hnil (b & Hin). apply elem_of_matches in Hin.
    rewrite Hnil in Hin. by apply elem_of_nil in Hin.
  - intros Hno. apply elem_of_nil_inv. intros b Hb%elem_of_matches. eauto.
Qed.

Lemma elem_of_merge_inner {A B} (left : rows K A) (right : rows K B) k a b :
  (k, (a, b)) ∈ merge_inner left right ↔ (k, a) ∈ left ∧ (k, b) ∈ right.
Proof.
  unfold merge_inner. rewrite list_elem_of_bind. split.
  - intros ([k' a'] & (b' & Heq & Hb)%list_elem_of_fmap & Hl).
    simpl in *. simplify_eq. by apply elem_of_matches in Hb.
  - intros [Hl Hr]. exists (k, a). split; [|done].
    apply list_elem_of_fmap. exists b. split; [done|]. by apply elem_of_matches.
Qed.

Lemma keys_merge_inner {A B} (left : rows K A) (right : rows K B) k :
  k ∈ keys (merge_inner left right) ↔ k ∈ keys left ∧ k ∈ keys right.
Proof.
  rewrite !elem_of_keys. split.
  - intros ([a b] & [??]%elem_of_merge_inner). eauto.
  - intros [[a ?] [b ?]]. exists (a, b). by apply elem_of_merge_inner.
Qed.

(** The rows of an outer merge: a pair of matching rows, a left row
    without a match, or a right row without a match. *)
Lemma elem_of_merge_outer {A B} (left : rows K A) (right : rows K B) k oa ob :
  (k, (oa, ob)) ∈ merge_outer key_le left right
  ↔ (∃ a b, oa = Some a ∧ ob = Some b ∧ (k, a) ∈ left ∧ (k, b) ∈ right)
    ∨ (∃ a, oa = Some a ∧ ob = None ∧ (k, a) ∈ left ∧ k ∉ keys right)
    ∨ (∃ b, oa = None ∧ ob = Some b ∧ (k, b) ∈ right ∧ k ∉ keys left).
Proof.
  unfold merge_outer. rewrite sort_by_key_Permutation.
  rewrite elem_of_app, !list_elem_of_bind. split.
  - intros [([k' a] & Hrow & Hl)|([k' b] & Hrow & Hr)]; cbn [fst snd] in *.
    + destruct (matches k' right) as [|b0 bs] eqn:Hm.
      * apply list_elem_of_singleton in Hrow. simplify_eq.
        right. left. exists a. by rewrite <- matches_nil.
      * apply list_elem_of_fmap in Hrow as (b & Heq & Hb). simplify_eq.
        left. exists a, b. rewrite <- Hm in Hb.
        by apply elem_of_matches in Hb.
    + case_decide as Hk; [by apply elem_of_nil in Hrow|].
      apply list_elem_of_singleton in Hrow. simplify_eq.
      right. right. by exists b.
  - intros [(a & b & -> & -> & Hl & Hr)|[(a & -> & -> & Hl & Hno)
                                        |(b & -> & -> & Hr & Hno)]].
    + left. exists (k, a). split; [|done]. cbn [fst snd].
      apply elem_of_matches in Hr.
      destruct (matches k right) as [|b0 bs] eqn:Hm;
        [by apply elem_of_nil in Hr|].
      apply list_elem_of_fmap. by exists b.
    + left. exists (k, a). split; [|done]. cbn [fst snd].
      apply matches_nil in Hno. rewrite Hno. by apply list_elem_of_singleton.
    + right. exists (k, b). split; [|done]. cbn [fst snd].
      rewrite decide_False by done. by apply list_elem_of_singleton.
Qed.

Lemma keys_merge_outer {A B} (left : rows K A) (right : rows K B) k :
  k ∈ keys (merge_outer key_le left right) ↔ k ∈ keys left ∨ k ∈ keys right.
Proof.
  rewrite !elem_of_keys. split.
  - intros ([oa ob] & Hrow). apply elem_of_merge_outer in Hrow.
    destruct Hrow as [(a & b & _ & _ & ? & ?)|[(a & _ & _ & ? & _)
                                             |(b & _ & _ & ? & _)]]; eauto.
  - intros [[a Ha]|[b Hb]].
    + destruct (decide (k ∈ keys right)) as [[b Hb]%elem_of_keys|Hno].
      * exists (Some a, Some b). apply elem_of_merge_outer. left. eauto 10.
      * exists (Some a, None). apply elem_of_merge_outer. right. left. eauto.
    + destruct (decide (k ∈ keys left)) as [[a Ha]%elem_of_keys|Hno].
      * exists (Some a, Some b). apply elem_of_merge_outer. left. eauto 10.
      * exists (None, Some b). apply elem_of_merge_outer. right. right. eauto.
Qed.
End Merge.

Section Frames.
Context {K : Type} `{EqDecision K}.
Variable key_le : K → K → bool.
Variable nan : K.
Variable text : string → K.

Lemma keys_key_rows (col : list K) : keys (key_rows col) = col.
Proof.
  unfold keys, key_rows.
  change (λ (i : nat) (k : K), (k, i)) with (λ (i : nat) (k : K), (k, id i)).
  generalize (@id nat).
  induction col as [|k col IH]; intros g; [done|].
  cbn [imap fmap list_fmap]. f_equal. apply (IH (g ∘ S)).
Qed.

Lemma elem_of_key_rows (col : list K) k j :
  (k, j) ∈ key_rows col → j < length col.
Proof.
  intros (i & y & Heq & Hi)%elem_of_lookup_imap_1. simplify_eq.
  by eapply lookup_lt_Some.
Qed.

Lemma column_of_notin (df : DataFrame K) (label : string) :
  label ∉ labels df → column_of df label = None.
Proof.
  induction df as [|c df IH]; intros Hno; [done|]. cbn [column_of].
  rewrite decide_False
    by (intros Heq; apply Hno; rewrite <- Heq; apply list_elem_of_here).
  apply IH. intros Hin. apply Hno. by apply list_elem_of_further.
Qed.

Lemma column_of_app_notin (df1 df2 : DataFrame K) (label : string) :
  label ∉ labels df1 → column_of (df1 ++ df2) label = column_of df2 label.
Proof.
  induction df1 as [|c df1 IH]; intros Hno; [done|]. cbn [app column_of].
  rewrite decide_False
    by (intros Heq; apply Hno; rewrite <- Heq; apply list_elem_of_here).
  apply IH. intros Hin. apply Hno. by apply list_elem_of_further.
Qed.

Lemma column_of_labels (df : DataFrame K) (label : string) col :
  column_of df label = Some col → label ∈ labels df.
Proof.
  intros Hcol. destruct (decide (label ∈ labels df)) as [|Hno]; [done|].
  by rewrite column_of_notin in Hcol.
Qed.

Lemma labels_other_columns (df : DataFrame K) (on label : string) :
  label ∈ labels (other_columns df on) ↔ label ∈ labels df ∧ label ≠ on.
Proof.
  unfold labels, other_columns. rewrite !list_elem_of_fmap. split.
  - intros (c & -> & [Hne Hc]%list_elem_of_filter). eauto.
  - intros [(c & -> & Hc) Hne]. exists c. split; [done|].
    by apply list_elem_of_filter.
Qed.

Lemma notin_labels_gather (label : string) others suffix side
    (plan : rows K (option nat * option nat)) (cols : DataFrame K) :
  (label ∈ labels cols → label ∈ others) →
  (∀ c, c +:+ suffix ≠ label) →
  label ∉ labels (gather nan others suffix side plan cols).
Proof.
  intros Hothers Hsuffix. unfold labels, gather.
  rewrite <- list_fmap_compose.
  intros (c & Heq & Hc)%list_elem_of_fmap. cbn in Heq.
  unfold suffixed in Heq. case_decide as Hin.
  - by apply (Hsuffix c.1).
  - apply Hin. rewrite <- Heq. apply Hothers. rewrite Heq.
    apply list_elem_of_fmap. by exists c.
Qed.

Lemma select_fmap {A B} (f : A → bool) (g : A → B) (l : list A) :
  select (f <$> l) (g <$> l) = g <$> filter (λ x, Is_true (f x)) l.
Proof.
  induction l as [|x l IH]; [done|]. cbn [fmap list_fmap select].
  destruct (f x) eqn:Hf.
  - rewrite filter_cons_True by (rewrite Hf; simpl; tauto). rewrite fmap_cons.
    f_equal. apply IH.
  - rewrite filter_cons_False by (rewrite Hf; simpl; tauto). apply IH.
Qed.

Lemma suffix_x_not_exists (c : string) : c +:+ "_x" ≠ "exists".
Proof.
  do 7 (destruct c as [|? c]; [by (simpl; intros [=])|]). simpl. intros [=].
Qed.

Lemma suffix_y_not_exists (c : string) : c +:+ "_y" ≠ "exists".
Proof.
  do 7 (destruct c as [|? c]; [by (simpl; intros [=])|]). simpl. intros [=].
Qed.

Lemma merge_Ok (left right : DataFrame K) (on : string) (h : how) lk rk :
  column_of left on = Some lk → column_of right on = Some rk →
  merge key_le nan left right on h
  = Ok ((on, keys (join_plan key_le h lk rk))
        :: gather nan (labels (other_columns right on)) "_x" fst
             (join_plan key_le h lk rk) (other_columns left on)
        ++ gather nan (labels (other_columns left on)) "_y" snd
             (join_plan key_le h lk rk) (other_columns right on)).
Proof. intros Hl Hr. unfold merge, getitem. by rewrite Hl, Hr. Qed.

(** No column of a merge is labelled ["exists"] when the key is not and
    either both frames or neither of them have a column of that label. *)
Lemma exists_notin_merged (left right : DataFrame K) (on : string)
    (plan : rows K (option nat * option nat)) :
  ("exists" ∈ labels left ↔ "exists" ∈ labels right) →
  "exists" ∉ labels
    (gather nan (labels (other_columns right on)) "_x" fst plan
       (other_columns left on)
     ++ gather nan (labels (other_columns left on)) "_y" snd plan
          (other_columns right on)).
Proof.
  intros Hiff. unfold labels at 1. rewrite fmap_app.
  intros [Hin|Hin]%elem_of_app; revert Hin.
  - apply notin_labels_gather; [|apply suffix_x_not_exists].
    rewrite !labels_other_columns. tauto.
  - apply notin_labels_gather; [|apply suffix_y_not_exists].
    rewrite !labels_other_columns. tauto.
Qed.
Lemma column_of_head (on : string) (kc : list K) (rest : DataFrame K) :
  column_of ((on, kc) :: rest) on = Some kc.
Proof. cbn [column_of fst snd]. by rewrite decide_True. Qed.

Lemma exists_notin_frame (on : string) (kc : list K) (rest : DataFrame K) :
  on ≠ "exists" → "exists" ∉ labels rest →
  "exists" ∉ labels ((on, kc) :: rest).
Proof.
  intros Hne Hrest [Heq|Hin]%elem_of_cons; [by apply Hne|by apply Hrest].
Qed.

Lemma getitem_mask_rows_head (on : string) (kc : list K) (rest : DataFrame K)
    (mask : list bool) :
  getitem (mask_rows ((on, kc) :: rest) mask) on = Ok (select mask kc).
Proof.
  unfold getitem, mask_rows. rewrite fmap_cons. cbn [fst snd].
  by rewrite column_of_head.
Qed.

(** The column ["exists"] of [df_merge] is the one set on [df_in]. *)
Lemma getitem_exists_merged (on : string) (kc ys : list K)
    (plan : rows K (option nat * option nat)) (others : list string)
    (lrest rrest : DataFrame K) :
  on ≠ "exists" → "exists" ∉ labels lrest → "exists" ∉ labels rrest →
  getitem
    ((on, kc)
     :: gather nan others "_x" fst plan lrest
     ++ gather nan (labels lrest) "_y" snd plan (rrest ++ [("exists", ys)]))
    "exists"
  = Ok ((λ r, take_cell nan ys r.2.2) <$> plan).
Proof.
  intros Hne Hl Hr. unfold getitem. cbn [column_of fst snd].
  rewrite decide_False by done.
  rewrite column_of_app_notin
    by (apply notin_labels_gather; [tauto | apply suffix_x_not_exists]).
  unfold gather at 1. rewrite fmap_app. fold (gather nan).
  rewrite column_of_app_notin
    by (apply notin_labels_gather; [tauto | apply suffix_y_not_exists]).
  cbn [fmap list_fmap column_of fst snd].
  unfold suffixed. rewrite (decide_False (P := "exists" ∈ labels lrest)) by done.
  by rewrite decide_True.
Qed.

Hypothesis nan_not_Y : nan ≠ text "Y".

Lemma filter_ext_in {A} (P Q : A → Prop) `{∀ x, Decision (P x)}
    `{∀ x, Decision (Q x)} (l : list A) :
  (∀ x, x ∈ l → P x ↔ Q x) → filter P l = filter Q l.
Proof.
  induction l as [|x l IH]; intros Hext; [done|].
  assert (P x ↔ Q x) as Hx by (apply Hext, list_elem_of_here).
  rewrite !filter_cons, IH by (intros; apply Hext; by apply list_elem_of_further).
  destruct (decide (P x)), (decide (Q x)); tauto.
Qed.

(** The rows of an outer merge without a partner on the right carry the
    keys of the left frame that the right frame has not. *)
Lemma keys_unmatched_merge_outer (left right : rows K nat) k :
  k ∈ keys (unmatched (merge_outer key_le left right))
  ↔ k ∈ keys left ∧ k ∉ keys right.
Proof.
  unfold unmatched. rewrite elem_of_keys. split.
  - intros ([oa ob] & [Hnone Hrow]%list_elem_of_filter).
    cbn [fst snd] in Hnone. subst ob.
    apply elem_of_merge_outer in Hrow.
    destruct Hrow as [(a & b & _ & ? & _)|[(a & _ & _ & Ha & Hno)
                                          |(b & _ & ? & _)]]; [done| |done].
    split; [|done]. apply elem_of_keys. eauto.
  - intros [[a Ha]%elem_of_keys Hno]. exists (Some a, None).
    apply list_elem_of_filter. split; [done|].
    apply elem_of_merge_outer. right. left. eauto.
Qed.

(** Outside the clash with the label ["exists"], the list returned is the
    key column of the rows of [df_merge] that have no partner in [df_in]. *)
Lemma get_diff_entries_shape (df1 df2 : DataFrame K) (column : string) lk rk :
  column ≠ "exists" →
  ("exists" ∈ labels df1 ↔ "exists" ∈ labels df2) →
  column_of df1 column = Some lk → column_of df2 column = Some rk →
  get_diff_entries key_le nan text df1 df2 column
  = Ok (keys (unmatched
          (join_plan key_le Outer (keys (join_plan key_le Outer lk rk))
             (keys (join_plan key_le Inner lk rk))))).
Proof.
  intros Hne Hiff H1 H2. unfold get_diff_entries.
  rewrite (merge_Ok df1 df2 column Outer lk rk) by done.
  cbn [mbind result_bind].
  rewrite (merge_Ok df1 df2 column Inner lk rk) by done.
  cbn [mbind result_bind].
  set (plan_out := join_plan key_le Outer lk rk).
  set (plan_in := join_plan key_le Inner lk rk).
  set (rest_out := gather nan _ "_x" fst plan_out _ ++ gather nan _ "_y" snd plan_out _).
  set (rest_in := gather nan _ "_x" fst plan_in _ ++ gather nan _ "_y" snd plan_in _).
  assert ("exists" ∉ labels rest_out) as Hout by (by apply exists_notin_merged).
  assert ("exists" ∉ labels rest_in) as Hin by (by apply exists_notin_merged).
  set (ys := replicate (length (keys plan_in)) (text "Y")).
  assert (setitem ((column, keys plan_in) :: rest_in) "exists" (text "Y")
          = (column, keys plan_in) :: rest_in ++ [("exists", ys)]) as ->.
  { unfold setitem. rewrite decide_False by (by apply exists_notin_frame). done. }
  rewrite (merge_Ok _ _ column Outer (keys plan_out) (keys plan_in))
    by apply column_of_head.
  cbn [mbind result_bind].
  set (plan := join_plan key_le Outer (keys plan_out) (keys plan_in)).
  assert (∀ (kc : list K) (rest : DataFrame K),
            other_columns ((column, kc) :: rest) column
            = other_columns rest column) as Hother.
  { intros kc rest. unfold other_columns.
    rewrite filter_cons_False; [done|]. cbn. tauto. }
  rewrite !Hother.
  assert (other_columns (rest_in ++ [("exists", ys)]) column
          = other_columns rest_in column ++ [("exists", ys)]) as ->.
  { unfold other_columns. rewrite filter_app. f_equal.
    rewrite filter_cons_True by (cbn; congruence). done. }
  assert ("exists" ∉ labels (other_columns rest_out column)) as Hout'
    by (rewrite labels_other_columns; tauto).
  assert ("exists" ∉ labels (other_columns rest_in column)) as Hin'
    by (rewrite labels_other_columns; tauto).
  rewrite getitem_exists_merged by done. cbn [mbind result_bind].
  rewrite getitem_mask_rows_head. cbn [mbind result_bind].
  f_equal. rewrite <- list_fmap_compose. unfold keys at 1. rewrite select_fmap.
  unfold keys, unmatched. f_equal. apply filter_ext_in.
  intros [k [oa ob]] Hrow. cbn [fst snd compose].
  destruct ob as [j|]; cbn [take_cell].
  - apply elem_of_merge_outer in Hrow.
    assert (j < length (keys plan_in)) as Hj.
    { destruct Hrow as [(a & b & _ & ? & _ & Hb)|[(a & _ & ? & _)
                                                 |(b & _ & ? & Hb & _)]];
        simplify_eq; by eapply elem_of_key_rows. }
    unfold ys. rewrite lookup_replicate_2 by done. cbn.
    rewrite bool_decide_false by tauto. done.
  - rewrite bool_decide_true by done. done.
Qed.

(** Outside the clash with the label ["exists"], the list returned has
    the keys of exactly one frame as its members. *)
Lemma get_diff_entries_spec (df1 df2 : DataFrame K) (column : string) lk rk :
  column ≠ "exists" →
  ("exists" ∈ labels df1 ↔ "exists" ∈ labels df2) →
  column_of df1 column = Some lk → column_of df2 column = Some rk →
  ∃ diff_list,
    get_diff_entries key_le nan text df1 df2 column = Ok diff_list
    ∧ ∀ k, k ∈ diff_list ↔ (k ∈ lk ∧ k ∉ rk) ∨ (k ∈ rk ∧ k ∉ lk).
Proof.
  intros Hne Hiff H1 H2. eexists.
  split; [by apply get_diff_entries_shape|]. intros k.
  unfold join_plan at 1. rewrite keys_unmatched_merge_outer, !keys_key_rows.
  unfold join_plan, keys at 2. rewrite <- list_fmap_compose.
  change (k ∈ keys (merge_outer key_le (key_rows lk) (key_rows rk))
          ∧ k ∉ keys (merge_inner (key_rows lk) (key_rows rk))
          ↔ k ∈ lk ∧ k ∉ rk ∨ k ∈ rk ∧ k ∉ lk).
  rewrite keys_merge_outer, keys_merge_inner, !keys_key_rows. tauto.
Qed.
End Frames.

(** With a key column that is not labelled ["exists"], and with a column of
    that label in both frames or in neither, the members of the list
    returned are the keys present in one frame and absent from the other. *)
Lemma get_diff_entries_symmetric_difference
    {K : Type} `{EqDecision K} (key_le : K → K → bool) (nan : K)
    (text : string → K) (df1 df2 : DataFrame K) (column : string)
    (col1 col2 : list K) :
  nan ≠ text "Y" → column ≠ "exists" →
  ("exists" ∈ labels df1 ↔ "exists" ∈ labels df2) →
  column_of df1 column = Some col1 → column_of df2 column = Some col2 →
  ∃ diff_list,
    get_diff_entries key_le nan text df1 df2 column = Ok diff_list
    ∧ ∀ k, k ∈ diff_list ↔ (k ∈ col1 ∧ k ∉ col2) ∨ (k ∈ col2 ∧ k ∉ col1).
Proof. intros. by apply get_diff_entries_spec. Qed.

(** With a key column that is not labelled ["exists"], reconciling a frame
    with itself returns the empty list. *)
Lemma get_diff_entries_self_empty
    {K : Type} `{EqDecision K} (key_le : K → K → bool) (nan : K)
    (text : string → K) (T : DataFrame K) (column : string) (col : list K) :
  nan ≠ text "Y" → column ≠ "exists" → column_of T column = Some col →
  get_diff_entries key_le nan text T T column = Ok [].
Proof.
  intros Hnan Hne HT.
  destruct (get_diff_entries_spec key_le nan text Hnan T T column col col)
    as (diff_list & -> & Hdiff); [done..|].
  f_equal. apply elem_of_nil_inv. intros k Hk%Hdiff. tauto.
Qed.

(** The scenario of the specification: keys A, B, C against B, C, D on the
    column ["Country"]. *)
Example get_diff_entries_scenario :
  get_diff_entries text_le None Some
    (text_frame [("Country", ["A"; "B"; "C"]); ("2018", ["1"; "2"; "3"])])
    (text_frame [("Country", ["B"; "C"; "D"]); ("2018", ["4"; "5"; "6"])])
    "Country"
  = Ok [Some "A"; Some "D"].
Proof. reflexivity. Qed.

(** C6 fails on the code.  The function writes its marks into a column that
    it labels ["exists"].  When the key column itself carries that label,
    the marks replace the keys of [df_in] and every key is reported: for
    the keys A, B, C and B, C, D the list is A, B, C, D, not A, D.  When
    one frame alone has another column of that label, the merge renames
    both columns and reading the marks raises [KeyError]. *)
Theorem get_diff_entries_exists_label_clash :
  get_diff_entries text_le None Some
    (text_frame [("exists", ["A"; "B"; "C"])])
    (text_frame [("exists", ["B"; "C"; "D"])]) "exists"
  = Ok [Some "A"; Some "B"; Some "C"; Some "D"]
  ∧ get_diff_entries text_le None Some
      (text_frame [("Country", ["A"; "B"; "C"]); ("exists", ["1"; "2"; "3"])])
      (text_frame [("Country", ["B"; "C"; "D"])]) "Country"
    = Raise (KeyError "exists").
Proof. split; reflexivity. Qed.

(** C7 fails on the code.  A frame whose key column is labelled ["exists"],
    reconciled with itself, has all its keys reported as mismatches. *)
Theorem get_diff_entries_self_exists_label_clash :
  get_diff_entries text_le None Some
    (text_frame [("exists", ["A"; "B"]); ("2018", ["1"; "2"])])
    (text_frame [("exists", ["A"; "B"]); ("2018", ["1"; "2"])]) "exists"
  = Ok [Some "A"; Some "B"].
Proof. reflexivity. Qed.

End ReconcileFacts.

(** ** Resolution of missing values *)

Module PipelineFacts.
Import Pipeline.

Lemma fill_id (value : cell) (col : list cell) :
  (∀ v, v ∈ col → v ≠ Missing) → fill value col = col.
Proof.
  unfold fill. induction col as [|v col IH]; intros Hcol; [done|].
  rewrite fmap_cons, IH by (intros; apply Hcol; set_solver).
  destruct v; [|done..]. exfalso. apply (Hcol Missing); set_solver.
Qed.

Lemma fill_no_missing (value : cell) (col : list cell) (v : cell) :
  value ≠ Missing → v ∈ fill value col → v ≠ Missing.
Proof.
  unfold fill. intros Hvalue (w & -> & _)%list_elem_of_fmap.
  by destruct w.
Qed.

Lemma fillna_scalar_no_missing (value : cell) (df : DataFrame) :
  value ≠ Missing → no_missing (fillna_scalar value df).
Proof.
  intros Hvalue c v (c0 & -> & _)%list_elem_of_fmap Hv.
  by apply (fill_no_missing value c0.2).
Qed.

(** Filling a frame that has no missing cell changes nothing, whatever the
    fill values are. *)
Lemma fillna_series_id (values : Series) (df : DataFrame) :
  no_missing df → fillna_series values df = df.
Proof.
  unfold fillna_series, no_missing.
  induction df as [|[label col] df IH]; intros Hdf; [done|].
  rewrite fmap_cons, IH by (intros c v ?; apply Hdf; set_solver).
  f_equal. cbn [fst snd]. f_equal.
  destruct (series_get values label); [|done].
  apply fill_id. intros v Hv. apply (Hdf (label, col)); [set_solver|done].
Qed.

(** C10. After the fill with zero the frame has no missing cell, and the
    fill with the column means that follows changes nothing: the two steps
    together give what the fill with zero gives. *)
Theorem resolve_missing_is_zero_fill (merged_data : DataFrame) :
  no_missing (fillna_scalar (Number 0) merged_data)
  ∧ resolve_missing merged_data = fillna_scalar (Number 0) merged_data.
Proof.
  assert (no_missing (fillna_scalar (Number 0) merged_data)) as Hno
    by (by apply fillna_scalar_no_missing).
  split; [done|]. unfold resolve_missing. by apply fillna_series_id.
Qed.

End PipelineFacts.

(** ** The order of the module-level statements *)

Module ScriptFacts.
Import Script.

(** C8 fails on the script.  The run ends at line 153 with
    [NameError] for [x]: the scatter plot reads [x] and [y], which are bound
    only at lines 160 and 161. *)
Theorem script_reads_x_before_binding :
  run builtins script = Failed 153 (NameError "x")
  ∧ first_binding "x" script = Some 160
  ∧ first_binding "y" script = Some 161
  ∧ readers "x" script = [153; 167; 170; 177; 187; 190; 197]
  ∧ readers "y" script = [153; 167; 177; 187; 197].
Proof. vm_compute. repeat split; reflexivity. Qed.

End ScriptFacts.

(** * Further properties *)

(** ** [err_ranges] and the model functions *)

Module ErrorsExtra.
Import Errors ErrorsFacts.

(** Calling a two-parameter model through [err_ranges] with a parameter
    vector that has not two entries, or with fewer than two sigmas, raises
    [TypeError]: [zip] cuts the perturbed tuples to the shorter length, and
    the model is then called with too few arguments. *)
Theorem err_ranges_arity_error (f : Q → Q → Q → float) (x param sigma : list Q) :
  length param ≠ 2 ∨ length sigma < 2 →
  err_ranges x (star_call f) param sigma = Raise TypeError.
Proof.
  intros Hlen. unfold err_ranges.
  destruct param as [|a [|b [|c param]]]; try done.
  - destruct Hlen as [Hlen|Hlen]; [done|].
    destruct sigma as [|s [|s' sigma]]; [done|done|simpl in Hlen; lia].
Qed.

Lemma err_ranges_arity_error_witness :
  err_ranges [1%Q] (star_call (λ x a b, Num (a * x + b))) [2%Q; 3%Q] [(1 # 10)%Q]
  = Raise TypeError.
Proof.
  apply (err_ranges_arity_error (λ x a b, Num (a * x + b)) [1%Q] [2%Q; 3%Q]
           [(1 # 10)%Q]).
  right. simpl. lia.
Defined.

(** Sigmas beyond the length of the parameter vector are never read: the
    result is that of the call with the surplus cut off. *)
Theorem err_ranges_surplus_sigma (func : callable) (x param sigma : list Q) :
  err_ranges x func param sigma
  = err_ranges x func param (take (length param) sigma).
Proof.
  unfold err_ranges, pmix_of, uplow_of. by rewrite zip_with_take_r.
Qed.

Lemma feq_refl (a : float) : feq a a.
Proof. destruct a; [done|]. apply Qeq_refl. Qed.

Lemma feq_trans (a b c : float) : feq a b → feq b c → feq a c.
Proof.
  destruct a, b, c; cbn; try done. apply Qeq_trans.
Qed.

Lemma fmin_feq (a w : float) : feq w a → feq (fmin a w) a.
Proof.
  destruct a as [|x], w as [|y]; cbn; try done.
  intros Heq. apply Q.min_l. rewrite Heq. apply Qle_refl.
Qed.

Lemma fmax_feq (a w : float) : feq w a → feq (fmax a w) a.
Proof.
  destruct a as [|x], w as [|y]; cbn; try done.
  intros Heq. apply Q.max_l. rewrite Heq. apply Qle_refl.
Qed.

Lemma foldl_fmin_feq (a b : float) (l : list float) :
  feq b a → (∀ w, w ∈ l → feq w a) → feq (foldl fmin b l) a.
Proof.
  revert b. induction l as [|w l IH]; intros b Hb Hl; [done|].
  cbn [foldl]. apply IH; [|intros; apply Hl; by apply list_elem_of_further].
  assert (feq w a) as Hw by (apply Hl, list_elem_of_here).
  destruct a as [|x], b as [|y], w as [|z]; cbn in *; try done.
  rewrite Hb, Hw. apply Q.min_id.
Qed.

Lemma foldl_fmax_feq (a b : float) (l : list float) :
  feq b a → (∀ w, w ∈ l → feq w a) → feq (foldl fmax b l) a.
Proof.
  revert b. induction l as [|w l IH]; intros b Hb Hl; [done|].
  cbn [foldl]. apply IH; [|intros; apply Hl; by apply list_elem_of_further].
  assert (feq w a) as Hw by (apply Hl, list_elem_of_here).
  destruct a as [|x], b as [|y], w as [|z]; cbn in *; try done.
  rewrite Hb, Hw. apply Q.max_id.
Qed.

(** With sigmas that are zero, every perturbed tuple equals the parameter
    vector. *)
Lemma perturb_zero (param sigma : list Q) (signs : list bool) :
  Forall (λ s, (s == 0)%Q) sigma →
  length sigma = length param → length signs = length param →
  Forall2 Qeq (perturb param sigma signs) param.
Proof.
  revert sigma signs. induction param as [|p param IH];
    intros [|s sigma] [|b signs] Hz ??; simplify_eq/=; [done|].
  apply Forall_cons in Hz as [Hs Hz]. constructor; [|by apply IH].
  unfold endpoint. destruct b; rewrite Hs; ring.
Qed.

(** With every sigma zero the envelope collapses onto the curve of the
    parameters: [lower[j]] and [upper[j]] both equal [model(x[j], *param)],
    for a model whose value does not depend on how a number is written. *)
Theorem err_ranges_zero_sigma
    (func : callable) (n : nat) (g : list Q → Q → float) (x param sigma : list Q) :
  elementwise n g func →
  (∀ p q xj, Forall2 Qeq p q → feq (g p xj) (g q xj)) →
  length param = n → length sigma = n → Forall (λ s, (s == 0)%Q) sigma →
  ∃ lower upper,
    err_ranges x func param sigma = Ok (lower, upper)
    ∧ ∀ j xj, x !! j = Some xj →
        ∃ l u, lower !! j = Some l ∧ upper !! j = Some u
               ∧ feq l (g param xj) ∧ feq u (g param xj).
Proof.
  intros Hf Hg Hp Hs Hz. eexists _, _.
  split; [by apply (err_ranges_closed_form _ _ _ Hf)|].
  intros j xj Hj. eexists _, _.
  rewrite !list_lookup_fmap, Hj. cbn [fmap option_fmap option_map].
  split; [done|]. split; [done|].
  assert (∀ w, w ∈ (λ q, g q xj) <$> sign_combinations param sigma →
               feq w (g param xj)) as Hall.
  { intros w (q & -> & Hq)%list_elem_of_fmap. apply Hg.
    apply list_elem_of_fmap in Hq as (signs & -> & Hsigns).
    apply all_signs_length in Hsigns. apply perturb_zero; congruence. }
  split; [apply foldl_fmin_feq | apply foldl_fmax_feq];
    auto using feq_refl.
Qed.

Lemma line_model_respects_Qeq (p q : list Q) (xj : Q) :
  Forall2 Qeq p q →
  feq (unpack2 (λ x a b, Num (a * x + b)) p xj)
      (unpack2 (λ x a b, Num (a * x + b)) q xj).
Proof.
  intros Hpq. destruct Hpq as [|a a' p q Ha Hpq]; [done|].
  destruct Hpq as [|b b' p q Hb Hpq]; [done|].
  destruct Hpq; [|done]. cbn. by rewrite Ha, Hb.
Qed.

Lemma err_ranges_zero_sigma_witness :
  ∃ lower upper,
    err_ranges [1%Q; 4%Q] (star_call (λ x a b, Num (a * x + b))) [2%Q; 3%Q]
      [0%Q; 0%Q] = Ok (lower, upper)
    ∧ ∀ j xj, [1%Q; 4%Q] !! j = Some xj →
        ∃ l u, lower !! j = Some l ∧ upper !! j = Some u
               ∧ feq l (unpack2 (λ x a b, Num (a * x + b)) [2%Q; 3%Q] xj)
               ∧ feq u (unpack2 (λ x a b, Num (a * x + b)) [2%Q; 3%Q] xj).
Proof.
  apply (err_ranges_zero_sigma (star_call (λ x a b, Num (a * x + b))) 2
           (unpack2 (λ x a b, Num (a * x + b)))).
  - apply star_call_elementwise.
  - apply line_model_respects_Qeq.
  - reflexivity.
  - reflexivity.
  - repeat constructor.
Defined.

(** The sigmoid model stays between zero and its amplitude [a]. *)
Theorem sigmoid_function_bounded (np_exp : Q → Q) (x a b : Q) :
  (∀ t, (0 <= np_exp t)%Q) → (0 <= a)%Q →
  ∃ v, sigmoid_function np_exp x a b = Num v ∧ (0 <= v)%Q ∧ (v <= a)%Q.
Proof.
  intros Hexp Ha. unfold sigmoid_function. cbn [fadd fdiv lift2].
  pose proof (Hexp (- b * x)%Q) as He.
  destruct (Qeq_bool (1 + np_exp (- b * x)) 0)%Q eqn:E.
  { apply Qeq_bool_iff in E. lra. }
  eexists. split; [done|].
  assert (0 < 1 + np_exp (- b * x))%Q as Hpos by lra.
  split.
  - apply Qle_shift_div_l; [done|]. lra.
  - apply Qle_shift_div_r; [done|]. nra.
Qed.

Lemma sigmoid_function_bounded_witness :
  ∃ v, sigmoid_function (λ t, 1%Q) 3 5 2 = Num v ∧ (0 <= v)%Q ∧ (v <= 5)%Q.
Proof.
  apply (sigmoid_function_bounded (λ t, 1%Q) 3 5 2).
  - intros t. unfold Qle. simpl. lia.
  - unfold Qle. simpl. lia.
Defined.

End ErrorsExtra.

(** ** [scaler] and [backscale] *)

Module ClusterToolsExtra.
Import ClusterTools ClusterToolsFacts.

(** [scaler] keeps the shape of the frame: as many columns, each of its
    length, one minimum and one maximum per column; a NaN cell stays NaN. *)
Theorem scaler_shape (df : DataFrame float) :
  length (scaler df).1.1 = length df
  ∧ length (scaler df).1.2 = length df
  ∧ length (scaler df).2 = length df
  ∧ ∀ i col, df !! i = Some col →
      ∃ ncol, (scaler df).1.1 !! i = Some ncol ∧ length ncol = length col
              ∧ ∀ j, col !! j = Some NaN → ncol !! j = Some NaN.
Proof.
  destruct (length_scaler df) as (Hn & Hmin & Hmax).
  split; [done|]. split; [done|]. split; [done|].
  intros i col Hi. destruct (scaler_lookup df i col Hi) as (Hnorm & _ & _).
  eexists. split; [exact Hnorm|]. split; [by rewrite length_fmap|].
  intros j Hj. by rewrite list_lookup_fmap, Hj.
Qed.

(** *** [backscale] for scale records of any length *)

Section Arithmetic.
Context {F : Type} `{Arith F}.

Lemma unscale_columns_take_any (n : nat) (cols : ndarray F)
    (minima maxima : list F) :
  length cols ≤ n ∨ length minima ≤ n ∨ length maxima ≤ n →
  unscale_columns cols (take n minima) (take n maxima)
  = unscale_columns cols minima maxima.
Proof.
  revert cols minima maxima.
  induction n as [|n IH]; intros [|c cols] [|m minima] [|x maxima] Hn;
    simpl in *; try done; try lia.
  f_equal. apply IH. lia.
Qed.

Lemma backscale_round_index_error (arr : loc) (minima maxima : list F)
    (h : heap F) (cols : ndarray F) (i : nat) :
  h !! arr = Some cols → cols !! i = None ∨ maxima !! i = None →
  bind (get_column arr i) (λ col,
    bind (item maxima i) (λ mx,
      bind (item minima i) (λ mn,
        set_column arr i ((λ v, add (mul v (sub mx mn)) mn) <$> col)))) h
  = (Raise IndexError, h).
Proof.
  intros Harr Hnone. unfold bind, get_column, item, deref.
  rewrite Harr. cbn [default from_option id].
  destruct (cols !! i) as [col|]; [|done].
  destruct Hnone as [|Hmax]; [done|]. by rewrite Hmax.
Qed.

(** The outcome of [backscale] for all lengths of the array and of the two
    series.  It returns the reference it was given when the array and the
    maxima have at least as many entries as the minima, and raises
    [IndexError] otherwise.  Either way the array then holds its leading
    columns back-scaled, as far as array, minima and maxima all reach, and
    its other columns as they were: an error leaves the columns that came
    before it changed. *)
Theorem backscale_outcome (arr : loc) (minima maxima : Series F)
    (h : heap F) (cols : ndarray F) :
  h !! arr = Some cols →
  backscale arr minima maxima h
  = (if decide (length minima ≤ length cols ∧ length minima ≤ length maxima)
     then Ok arr else Raise IndexError,
     <[arr := unscale_columns cols minima maxima]> h).
Proof.
  intros Harr. case_decide as Hlen.
  - apply backscale_closed_form; [done|lia..].
  - set (n := length cols `min` length maxima).
    assert (n < length minima) as Hn by lia.
    unfold backscale, to_numpy. unfold bind at 1.
    replace (length minima) with (n + S (length minima - S n)) by lia.
    rewrite seq_app, for_range_app.
    rewrite (backscale_loop arr minima maxima n h cols) by (done || lia).
    cbn [seq for_range plus]. unfold bind at 1.
    rewrite (backscale_round_index_error arr minima maxima _
               (unscale_columns cols (take n minima) (take n maxima))).
    + rewrite unscale_columns_take_any by lia. done.
    + by rewrite lookup_insert_eq.
    + destruct (decide (length cols ≤ length maxima)).
      * left. apply lookup_ge_None_2. rewrite length_unscale_columns. lia.
      * right. apply lookup_ge_None_2. lia.
Qed.
End Arithmetic.

Lemma backscale_outcome_witness :
  backscale 0 [Num 10; Num 1] [Num 20] {[0 := [[Num 0; Num 1]; [Num 1; Num 0]]]}
  = (if decide (length [Num 10; Num 1] ≤ length [[Num 0; Num 1]; [Num 1; Num 0]]
                ∧ length [Num 10; Num 1] ≤ length [Num 20])
     then Ok 0 else Raise IndexError,
     <[0 := unscale_columns [[Num 0; Num 1]; [Num 1; Num 0]]
              [Num 10; Num 1] [Num 20]]>
       {[0 := [[Num 0; Num 1]; [Num 1; Num 0]]]}).
Proof.
  apply (backscale_outcome 0 [Num 10; Num 1] [Num 20]
           {[0 := [[Num 0; Num 1]; [Num 1; Num 0]]]}
           [[Num 0; Num 1]; [Num 1; Num 0]]).
  reflexivity.
Defined.

End ClusterToolsExtra.

(** ** [get_diff_entries] *)

Module ReconcileExtra.
Import Reconcile Diagnostics ReconcileFacts.

(** When one of the frames has no column of the given name, the first
    merge raises [KeyError] with that name. *)
Theorem get_diff_entries_missing_column
    {K : Type} `{EqDecision K} (key_le : K → K → bool) (nan : K)
    (text : string → K) (df1 df2 : DataFrame K) (column : string) :
  column_of df1 column = None ∨ column_of df2 column = None →
  get_diff_entries key_le nan text df1 df2 column = Raise (KeyError column).
Proof.
  intros Hnone. unfold get_diff_entries.
  assert (merge key_le nan df1 df2 column Outer = Raise (KeyError column)) as ->;
    [|done].
  unfold merge, getitem.
  destruct (column_of df1 column) as [lk|]; [|done].
  destruct Hnone as [|Hnone]; [done|]. by rewrite Hnone.
Qed.

Lemma get_diff_entries_missing_column_witness :
  get_diff_entries text_le None Some
    (text_frame [("Country", ["A"; "B"])])
    (text_frame [("Country Name", ["A"; "B"])]) "Country"
  = Raise (KeyError "Country").
Proof.
  apply (get_diff_entries_missing_column text_le None Some
           (text_frame [("Country", ["A"; "B"])])
           (text_frame [("Country Name", ["A"; "B"])]) "Country").
  right. reflexivity.
Defined.

(** Outside the clash with the label ["exists"], the order of the two
    frames does not matter for what is reported: both calls succeed, and
    their lists have the same members. *)
Theorem get_diff_entries_symmetric
    {K : Type} `{EqDecision K} (key_le : K → K → bool) (nan : K)
    (text : string → K) (df1 df2 : DataFrame K) (column : string)
    (col1 col2 : list K) :
  nan ≠ text "Y" → column ≠ "exists" →
  ("exists" ∈ labels df1 ↔ "exists" ∈ labels df2) →
  column_of df1 column = Some col1 → column_of df2 column = Some col2 →
  ∃ diff12 diff21,
    get_diff_entries key_le nan text df1 df2 column = Ok diff12
    ∧ get_diff_entries key_le nan text df2 df1 column = Ok diff21
    ∧ ∀ k, k ∈ diff12 ↔ k ∈ diff21.
Proof.
  intros Hnan Hne Hiff H1 H2.
  destruct (get_diff_entries_spec key_le nan text Hnan df1 df2 column col1 col2)
    as (diff12 & Hrun12 & Hmem12); [done..|].
  destruct (get_diff_entries_spec key_le nan text Hnan df2 df1 column col2 col1)
    as (diff21 & Hrun21 & Hmem21); [done|tauto|done..|].
  exists diff12, diff21. split; [done|]. split; [done|].
  intros k. rewrite Hmem12, Hmem21. tauto.
Qed.

Lemma get_diff_entries_symmetric_witness :
  ∃ diff12 diff21,
    get_diff_entries text_le None Some
      (text_frame [("Country", ["A"; "B"; "C"]); ("2018", ["1"; "2"; "3"])])
      (text_frame [("Country", ["B"; "C"; "D"])]) "Country" = Ok diff12
    ∧ get_diff_entries text_le None Some
        (text_frame [("Country", ["B"; "C"; "D"])])
        (text_frame [("Country", ["A"; "B"; "C"]); ("2018", ["1"; "2"; "3"])])
        "Country" = Ok diff21
    ∧ ∀ k, k ∈ diff12 ↔ k ∈ diff21.
Proof.
  apply (get_diff_entries_symmetric text_le None Some
           (text_frame [("Country", ["A"; "B"; "C"]); ("2018", ["1"; "2"; "3"])])
           (text_frame [("Country", ["B"; "C"; "D"])]) "Country"
           [Some "A"; Some "B"; Some "C"] [Some "B"; Some "C"; Some "D"]).
  - done.
  - done.
  - split; intros Hin; exfalso; revert Hin;
      apply (bool_decide_eq_false_1 _); reflexivity.
  - reflexivity.
  - reflexivity.
Defined.

(** *** The printed counts *)

Section Counts.
Context {K : Type} `{EqDecision K}.
Variable key_le : K → K → bool.

Lemma matches_NoDup {B} (k : K) (right : rows K B) :
  NoDup (keys right) → matches k right = [] ∨ ∃ b, matches k right = [b].
Proof.
  induction right as [|[k' b] right IH]; intros Hnd; [by left|].
  change (keys ((k', b) :: right)) with (k' :: keys right) in Hnd.
  apply NoDup_cons in Hnd as [Hk' Hnd].
  unfold matches. cbn. case_decide as Hk; [|by apply IH]. subst k'.
  right. exists b. change (b :: matches k right = [b]).
  by apply matches_nil in Hk' as ->.
Qed.

Lemma keys_merge_inner_NoDup {A B} (left : rows K A) (right : rows K B) :
  NoDup (keys right) →
  keys (merge_inner left right) = filter (λ k, k ∈ keys right) (keys left).
Proof.
  intros Hnd. unfold merge_inner, keys.
  induction left as [|[k a] left IH]; [done|].
  rewrite bind_cons, fmap_app, IH, fmap_cons, filter_cons. cbn [fst snd].
  destruct (matches_NoDup k right Hnd) as [Hm|[b Hm]]; rewrite Hm.
  - apply matches_nil in Hm. by rewrite decide_False.
  - rewrite decide_True; [done|]. apply elem_of_keys. exists b.
    apply elem_of_matches. rewrite Hm. apply list_elem_of_here.
Qed.

Lemma keys_merge_outer_NoDup {A B} (left : rows K A) (right : rows K B) :
  NoDup (keys right) →
  keys (merge_outer key_le left right)
  ≡ₚ keys left ++ filter (λ k, k ∉ keys left) (keys right).
Proof.
  intros Hnd. unfold merge_outer, keys at 1.
  rewrite sort_by_key_Permutation, fmap_app. apply Permutation_app.
  - apply reflexive_eq. fold (@keys K A left).
    induction left as [|[k a] left IH]; [done|].
    rewrite bind_cons, fmap_app, IH. cbn [fst snd]. unfold keys at 2.
    rewrite fmap_cons. cbn [fst]. f_equal.
    destruct (matches_NoDup k right Hnd) as [->|[b ->]]; done.
  - apply reflexive_eq. clear Hnd.
    induction right as [|[k b] right IH]; [done|].
    change (keys ((k, b) :: right)) with (k :: keys right).
    rewrite bind_cons, fmap_app, IH, filter_cons. cbn [fst snd].
    by destruct (decide (k ∈ keys left)), (decide (k ∉ keys left)).
Qed.

Lemma NoDup_keys_merge_outer {A B} (left : rows K A) (right : rows K B) :
  NoDup (keys left) → NoDup (keys right) →
  NoDup (keys (merge_outer key_le left right)).
Proof.
  intros Hl Hr. rewrite keys_merge_outer_NoDup by done.
  apply NoDup_app. split; [done|]. split; [|by apply NoDup_filter].
  intros k Hk [Hno _]%list_elem_of_filter. done.
Qed.

(** Two lists without repetition have as many members of each other. *)
Lemma length_filter_elem_of_symm (l1 l2 : list K) :
  NoDup l1 → NoDup l2 →
  length (filter (λ k, k ∈ l2) l1) = length (filter (λ k, k ∈ l1) l2).
Proof.
  intros H1 H2. apply Permutation_length, NoDup_Permutation.
  - by apply NoDup_filter.
  - by apply NoDup_filter.
  - intros k. rewrite !list_elem_of_filter. tauto.
Qed.

Lemma length_filter_complement {A} (P : A → Prop) `{∀ x, Decision (P x)}
    (l : list A) :
  length (filter P l) + length (filter (λ x, ¬ P x) l) = length l.
Proof.
  rewrite <- length_app. apply Permutation_length, filter_app_complement.
Qed.

(** The rows without a partner on the right are as many as the keys of
    the left frame that the right frame has not. *)
Lemma length_unmatched_merge_outer (left right : rows K nat) :
  NoDup (keys right) →
  length (unmatched (merge_outer key_le left right))
  = length (filter (λ k, k ∉ keys right) (keys left)).
Proof.
  intros Hnd. unfold unmatched, merge_outer.
  rewrite (Permutation_length
             (filter_Permutation _ _ _ (sort_by_key_Permutation key_le _))).
  rewrite filter_app, length_app.
  assert (filter (λ r : K * (option nat * option nat), r.2.2 = None)
            (r ← right; if decide (r.1 ∈ keys left)
                        then [] else [(r.1, (None, Some r.2))]) = []) as ->.
  { apply elem_of_nil_inv. intros row [Hnone Hrow]%list_elem_of_filter.
    apply list_elem_of_bind in Hrow as (r & Hrow & _).
    case_decide; [by apply elem_of_nil in Hrow|].
    apply list_elem_of_singleton in Hrow. by subst row. }
  rewrite Nat.add_0_r.
  induction left as [|[k a] left IH]; [done|].
  change (keys ((k, a) :: left)) with (k :: keys left).
  rewrite bind_cons, filter_app, length_app, IH, filter_cons.
  cbn [fst snd].
  destruct (matches_NoDup k right Hnd) as [Hm|[b Hm]]; rewrite Hm.
  - apply matches_nil in Hm. rewrite decide_True by done. done.
  - rewrite decide_False; [done|]. intros Hno. apply Hno, elem_of_keys.
    exists b. apply elem_of_matches. rewrite Hm. apply list_elem_of_here.
Qed.

Variable nan : K.

Lemma nrows_merged (on : string) {P} (plan : rows K P) (rest : DataFrame K) :
  nrows ((on, keys plan) :: rest) = length plan.
Proof. unfold keys. cbn. apply length_fmap. Qed.

Lemma keys_join_plan_inner (lk rk : list K) :
  keys (join_plan key_le Inner lk rk)
  = keys (merge_inner (key_rows lk) (key_rows rk)).
Proof. unfold join_plan, keys. by rewrite <- list_fmap_compose. Qed.

(** With keys that occur once in each frame, the two printed counts add up
    to the rows of both frames: a key in common is counted once among the
    total entries and once more among the entries in common. *)
Theorem printed_counts_sum (df1 df2 : DataFrame K) (column : string)
    (col1 col2 : list K) :
  column_of df1 column = Some col1 → column_of df2 column = Some col2 →
  NoDup col1 → NoDup col2 →
  ∃ total common,
    total_entries key_le nan df1 df2 column = Ok total
    ∧ entries_in_common key_le nan df1 df2 column = Ok common
    ∧ total + common = length col1 + length col2
    ∧ common ≤ length col1 ∧ common ≤ length col2.
Proof.
  intros H1 H2 Hnd1 Hnd2. unfold total_entries, entries_in_common.
  rewrite !(merge_Ok key_le nan df1 df2 column _ col1 col2) by done.
  cbn [mbind result_bind]. eexists _, _. split; [done|]. split; [done|].
  rewrite !nrows_merged.
  assert (length (join_plan key_le Inner col1 col2)
          = length (filter (λ k, k ∈ col2) col1)) as ->.
  { rewrite <- (length_fmap fst). fold (keys (join_plan key_le Inner col1 col2)).
    rewrite keys_join_plan_inner, keys_merge_inner_NoDup, !keys_key_rows;
      [done|by rewrite keys_key_rows]. }
  assert (length (join_plan key_le Outer col1 col2)
          = length col1 + length (filter (λ k, k ∉ col1) col2)) as ->.
  { rewrite <- (length_fmap fst). fold (keys (join_plan key_le Outer col1 col2)).
    unfold join_plan. rewrite keys_merge_outer_NoDup by (by rewrite keys_key_rows).
    by rewrite length_app, !keys_key_rows. }
  pose proof (length_filter_complement (λ k, k ∈ col1) col2).
  pose proof (length_filter_elem_of_symm col1 col2 Hnd1 Hnd2).
  pose proof (length_filter (λ k, k ∈ col2) col1).
  pose proof (length_filter (λ k, k ∈ col1) col2).
  lia.
Qed.

Variable text : string → K.

(** Outside the clash with the label ["exists"] and with keys that occur
    once in each frame, the list returned has as many entries as the total
    entries exceed the entries in common. *)
Theorem diff_list_length (df1 df2 : DataFrame K) (column : string)
    (col1 col2 : list K) :
  nan ≠ text "Y" → column ≠ "exists" →
  ("exists" ∈ labels df1 ↔ "exists" ∈ labels df2) →
  column_of df1 column = Some col1 → column_of df2 column = Some col2 →
  NoDup col1 → NoDup col2 →
  ∃ diff_list total common,
    get_diff_entries key_le nan text df1 df2 column = Ok diff_list
    ∧ total_entries key_le nan df1 df2 column = Ok total
    ∧ entries_in_common key_le nan df1 df2 column = Ok common
    ∧ length diff_list + common = total.
Proof.
  intros Hnan Hne Hiff H1 H2 Hnd1 Hnd2. unfold total_entries, entries_in_common.
  rewrite !(merge_Ok key_le nan df1 df2 column _ col1 col2) by done.
  cbn [mbind result_bind]. eexists _, _, _.
  split; [by apply (get_diff_entries_shape key_le nan text Hnan)|].
  split; [done|]. split; [done|]. rewrite !nrows_merged.
  set (plan_out := join_plan key_le Outer col1 col2).
  set (plan_in := join_plan key_le Inner col1 col2).
  assert (NoDup (keys plan_out)) as Hout.
  { apply NoDup_keys_merge_outer; by rewrite keys_key_rows. }
  assert (keys plan_in = filter (λ k, k ∈ col2) col1) as Hkin.
  { unfold plan_in. rewrite keys_join_plan_inner, keys_merge_inner_NoDup,
      !keys_key_rows; [done|by rewrite keys_key_rows]. }
  assert (NoDup (keys plan_in)) as Hin by (rewrite Hkin; by apply NoDup_filter).
  assert (∀ k, k ∈ keys plan_in → k ∈ keys plan_out) as Hsub.
  { intros k. rewrite Hkin. unfold plan_out, join_plan.
    rewrite keys_merge_outer, !keys_key_rows, list_elem_of_filter. tauto. }
  unfold keys at 1. rewrite length_fmap. unfold join_plan at 1.
  rewrite length_unmatched_merge_outer by (by rewrite keys_key_rows).
  rewrite !keys_key_rows.
  pose proof (length_filter_complement (λ k, k ∈ keys plan_in) (keys plan_out))
    as Hsplit.
  rewrite (length_filter_elem_of_symm _ _ Hout Hin) in Hsplit.
  assert (filter (λ k, k ∈ keys plan_out) (keys plan_in) = keys plan_in) as Hall.
  { clear -Hsub. induction (keys plan_in) as [|k l IH]; [done|].
    rewrite filter_cons, decide_True by (apply Hsub, list_elem_of_here).
    f_equal. apply IH. intros; by apply Hsub, list_elem_of_further. }
  rewrite Hall in Hsplit.
  assert (∀ t : rows K (option nat * option nat), length (keys t) = length t)
    as Hlen by (intros; apply length_fmap).
  rewrite !Hlen in Hsplit. lia.
Qed.
End Counts.

Lemma printed_counts_sum_witness :
  ∃ total common,
    total_entries text_le None
      (text_frame [("Country", ["A"; "B"; "C"]); ("2018", ["1"; "2"; "3"])])
      (text_frame [("Country", ["B"; "C"; "D"])]) "Country" = Ok total
    ∧ entries_in_common text_le None
        (text_frame [("Country", ["A"; "B"; "C"]); ("2018", ["1"; "2"; "3"])])
        (text_frame [("Country", ["B"; "C"; "D"])]) "Country" = Ok common
    ∧ total + common
      = length [Some "A"; Some "B"; Some "C"] + length [Some "B"; Some "C"; Some "D"]
    ∧ common ≤ length [Some "A"; Some "B"; Some "C"]
    ∧ common ≤ length [Some "B"; Some "C"; Some "D"].
Proof.
  apply (printed_counts_sum text_le None
           (text_frame [("Country", ["A"; "B"; "C"]); ("2018", ["1"; "2"; "3"])])
           (text_frame [("Country", ["B"; "C"; "D"])]) "Country"
           [Some "A"; Some "B"; Some "C"] [Some "B"; Some "C"; Some "D"]).
  - reflexivity.
  - reflexivity.
  - apply (bool_decide_unpack _). reflexivity.
  - apply (bool_decide_unpack _). reflexivity.
Defined.

Lemma diff_list_length_witness :
  ∃ diff_list total common,
    get_diff_entries text_le None Some
      (text_frame [("Country", ["A"; "B"; "C"]); ("2018", ["1"; "2"; "3"])])
      (text_frame [("Country", ["B"; "C"; "D"])]) "Country" = Ok diff_list
    ∧ total_entries text_le None
        (text_frame [("Country", ["A"; "B"; "C"]); ("2018", ["1"; "2"; "3"])])
        (text_frame [("Country", ["B"; "C"; "D"])]) "Country" = Ok total
    ∧ entries_in_common text_le None
        (text_frame [("Country", ["A"; "B"; "C"]); ("2018", ["1"; "2"; "3"])])
        (text_frame [("Country", ["B"; "C"; "D"])]) "Country" = Ok common
    ∧ length diff_list + common = total.
Proof.
  apply (diff_list_length text_le None Some
           (text_frame [("Country", ["A"; "B"; "C"]); ("2018", ["1"; "2"; "3"])])
           (text_frame [("Country", ["B"; "C"; "D"])]) "Country"
           [Some "A"; Some "B"; Some "C"] [Some "B"; Some "C"; Some "D"]).
  - done.
  - done.
  - split; intros Hin; exfalso; revert Hin;
      apply (bool_decide_eq_false_1 _); reflexivity.
  - reflexivity.
  - reflexivity.
  - apply (bool_decide_unpack _). reflexivity.
  - apply (bool_decide_unpack _). reflexivity.
Defined.

End ReconcileExtra.

(** ** Resolution of missing values, further *)

Module PipelineExtra.
Import Pipeline PipelineFacts.

Lemma fillna_scalar_id (value : cell) (df : DataFrame) :
  no_missing df → fillna_scalar value df = df.
Proof.
  unfold fillna_scalar, no_missing.
  induction df as [|[label col] df IH]; intros Hdf; [done|].
  rewrite fmap_cons, IH by (intros c v ?; apply Hdf; by apply list_elem_of_further).
  cbn [fst snd]. rewrite fill_id; [done|].
  intros v Hv. apply (Hdf (label, col)); [apply list_elem_of_here|done].
Qed.

Lemma resolve_missing_zero_fill (df : DataFrame) :
  resolve_missing df = fillna_scalar (Number 0) df.
Proof.
  unfold resolve_missing. by apply fillna_series_id, fillna_scalar_no_missing.
Qed.

(** Resolving the missing values a second time changes nothing, and the
    resolved frame has no missing cell. *)
Theorem resolve_missing_idempotent (merged_data : DataFrame) :
  no_missing (resolve_missing merged_data)
  ∧ resolve_missing (resolve_missing merged_data) = resolve_missing merged_data.
Proof.
  rewrite !resolve_missing_zero_fill.
  assert (no_missing (fillna_scalar (Number 0) merged_data)) as Hno
    by (by apply fillna_scalar_no_missing).
  split; [done|]. by apply fillna_scalar_id.
Qed.

Lemma numeric_fill_zero (col : list cell) (qs : list Q) :
  numeric col = Some qs →
  ∃ qs', numeric (fill (Number 0) col) = Some qs'
         ∧ length qs' = length col
         ∧ (foldr Qplus 0 qs' == foldr Qplus 0 qs)%Q.
Proof.
  revert qs. induction col as [|v col IH]; intros qs Hqs.
  { simplify_eq/=. by exists []. }
  destruct v as [|q|s]; cbn [numeric] in Hqs; [| |done].
  - destruct (IH qs Hqs) as (qs' & Hqs' & Hlen & Hsum).
    exists (0%Q :: qs'). unfold fill in *. rewrite fmap_cons. cbn [numeric].
    rewrite Hqs'. cbn [fmap option_fmap option_map length foldr].
    split; [done|]. split; [by rewrite Hlen|]. rewrite Hsum. lra.
  - destruct (numeric col) as [qs0|] eqn:E; [|done].
    cbn in Hqs. simplify_eq.
    destruct (IH qs0 eq_refl) as (qs' & Hqs' & Hlen & Hsum).
    exists (q :: qs'). unfold fill in *. rewrite fmap_cons. cbn [numeric].
    rewrite Hqs'. cbn [fmap option_fmap option_map length foldr].
    split; [done|]. split; [by rewrite Hlen|]. by rewrite Hsum.
Qed.

(** The column means of line 135 are taken after the fill with zero of
    line 132: the mean of a column of numbers is the sum of the numbers
    present divided by the number of all rows, the missing ones
    included. *)
Theorem column_means_count_missing_rows (merged_data : DataFrame) (i : nat)
    (label : string) (col : list cell) (qs : list Q) :
  merged_data !! i = Some (label, col) → numeric col = Some qs → col ≠ [] →
  ∃ mean,
    (label, Number mean) ∈ frame_mean (fillna_scalar (Number 0) merged_data)
    ∧ (mean == foldr Qplus 0 qs / inject_Z (Z.of_nat (length col)))%Q.
Proof.
  intros Hi Hqs Hne.
  destruct (numeric_fill_zero col qs Hqs) as (qs' & Hqs' & Hlen & Hsum).
  exists (foldr Qplus 0 qs' / inject_Z (Z.of_nat (length qs')))%Q. split.
  - unfold frame_mean. apply list_elem_of_omap.
    exists (label, fill (Number 0) col). split.
    + unfold fillna_scalar. apply list_elem_of_fmap. exists (label, col).
      split; [done|]. by apply list_elem_of_lookup_2 in Hi.
    + cbn [fst snd]. rewrite Hqs'. cbn [fmap option_fmap option_map].
      unfold average. destruct qs' as [|q qs']; [|done].
      destruct col; [done|]. done.
  - by rewrite Hlen, Hsum.
Qed.

Lemma column_means_count_missing_rows_witness :
  ∃ mean,
    ("2018", Number mean)
    ∈ frame_mean (fillna_scalar (Number 0)
        [("Country", [Text "A"; Text "B"]); ("2018", [Number 3; Missing])])
    ∧ (mean == foldr Qplus 0 [3%Q]
               / inject_Z (Z.of_nat (length [Number 3; Missing])))%Q.
Proof.
  apply (column_means_count_missing_rows
           [("Country", [Text "A"; Text "B"]); ("2018", [Number 3; Missing])]
           1 "2018" [Number 3; Missing] [3%Q]).
  - reflexivity.
  - reflexivity.
  - done.
Defined.

End PipelineExtra.

(** ** The frames of the script *)

Module AssembleFacts.
Import Reconcile ReconcileFacts Assemble.

Section Assemble.
Context {K : Type} `{EqDecision K}.
Variable nan : K.

Lemma labels_rename (df : DataFrame K) (old new : string) :
  labels (rename df old new)
  = (λ l, if decide (l = old) then new else l) <$> labels df.
Proof.
  unfold labels, rename. rewrite <- !list_fmap_compose.
  apply list_fmap_ext. intros _ [l col] _. cbn. by case_decide.
Qed.

Lemma NoDup_labels_rename (df : DataFrame K) (old new : string) :
  NoDup (labels df) → new ∉ labels df → NoDup (labels (rename df old new)).
Proof.
  intros Hnd Hnew. rewrite labels_rename.
  apply NoDup_fmap_2_strong; [|done].
  intros l1 l2 H1 H2 Heq. repeat case_decide; congruence.
Qed.

Lemma elem_of_labels_rename (df : DataFrame K) (old new label : string) :
  label ≠ old → label ≠ new →
  label ∈ labels (rename df old new) ↔ label ∈ labels df.
Proof.
  intros Hold Hnew. rewrite labels_rename, list_elem_of_fmap. split.
  - intros (l & Heq & Hl). case_decide; congruence.
  - intros Hl. exists label. by rewrite decide_False.
Qed.

Lemma column_of_rename_new (df : DataFrame K) (old new : string) :
  new ∉ labels df → column_of (rename df old new) new = column_of df old.
Proof.
  induction df as [|[l col] df IH]; intros Hnew; [done|].
  assert (l ≠ new) as Hl by (intros ->; apply Hnew, list_elem_of_here).
  assert (new ∉ labels df) as Hnew'
    by (intros Hin; by apply Hnew, list_elem_of_further).
  unfold rename in *. rewrite fmap_cons. cbn [column_of fst snd].
  destruct (decide (l = old)) as [->|Hne]; cbn [fst snd].
  - by rewrite !decide_True.
  - rewrite decide_False by done. by apply IH.
Qed.

Lemma column_of_rename_other (df : DataFrame K) (old new label : string) :
  label ≠ old → label ≠ new →
  column_of (rename df old new) label = column_of df label.
Proof.
  intros Hold Hnew. induction df as [|[l col] df IH]; [done|].
  unfold rename in *. rewrite fmap_cons. cbn [column_of fst snd].
  destruct (decide (l = old)) as [->|Hne]; cbn [fst snd].
  - rewrite !decide_False by done. apply IH.
  - destruct (decide (l = label)); [done|]. apply IH.
Qed.

Lemma filter_label (df : DataFrame K) (label : string) (col : list K) :
  NoDup (labels df) → column_of df label = Some col →
  filter (λ c : string * list K, c.1 = label) df = [(label, col)].
Proof.
  induction df as [|[l c] df IH]; intros Hnd Hcol; [done|].
  change (labels ((l, c) :: df)) with (l :: labels df) in Hnd.
  apply NoDup_cons in Hnd as [Hl Hnd].
  cbn [column_of fst snd] in Hcol. rewrite filter_cons. cbn [fst snd].
  destruct (decide (l = label)) as [->|Hne].
  - simplify_eq. f_equal. apply elem_of_nil_inv.
    intros [l' c'] [Heq Hin]%list_elem_of_filter. cbn in Heq. subst l'.
    apply Hl, list_elem_of_fmap. by exists (label, c').
  - by apply IH.
Qed.

Lemma getitem_list_two (df : DataFrame K) (l1 l2 : string) (c1 c2 : list K) :
  NoDup (labels df) → column_of df l1 = Some c1 → column_of df l2 = Some c2 →
  getitem_list df [l1; l2] = Ok [(l1, c1); (l2, c2)].
Proof.
  intros Hnd H1 H2. cbn [getitem_list].
  by rewrite (filter_label df l1 c1), (filter_label df l2 c2).
Qed.

Lemma elem_of_key_rows_lookup (col : list K) (k : K) (i : nat) :
  (k, i) ∈ key_rows col ↔ col !! i = Some k.
Proof.
  unfold key_rows. split.
  - intros (j & y & Heq & Hj)%elem_of_lookup_imap_1. by simplify_eq.
  - intros Hi. apply elem_of_lookup_imap. by exists i, k.
Qed.

(** The frame that the script clusters and fits.  For two frames with
    columns [Country Name] and [2018], the merge of lines 122 to 130
    succeeds and gives the three columns [Country], [2018_renewable] and
    [2018_access], the labels under which lines 142, 160 and 161 read them.
    Its rows are those of an inner join: a row for every pair of a row of
    the first and a row of the second frame with the same country, with the
    value of 2018 of either. *)
Theorem merged_data_columns (df1 df2 : DataFrame K) (c1 v1 c2 v2 : list K) :
  NoDup (labels df1) → NoDup (labels df2) →
  "Country" ∉ labels df1 → "Country" ∉ labels df2 →
  column_of df1 "Country Name" = Some c1 → column_of df1 "2018" = Some v1 →
  column_of df2 "Country Name" = Some c2 → column_of df2 "2018" = Some v2 →
  length v1 = length c1 → length v2 = length c2 →
  ∃ country renewable access,
    merged_data_of nan df1 df2
    = Ok [("Country", country); ("2018_renewable", renewable);
          ("2018_access", access)]
    ∧ length renewable = length country ∧ length access = length country
    ∧ (∀ r k, country !! r = Some k →
         ∃ i j, c1 !! i = Some k ∧ c2 !! j = Some k
                ∧ renewable !! r = v1 !! i ∧ access !! r = v2 !! j)
    ∧ (∀ i j k, c1 !! i = Some k → c2 !! j = Some k →
         ∃ r, country !! r = Some k
              ∧ renewable !! r = v1 !! i ∧ access !! r = v2 !! j).
Proof.
  intros Hnd1 Hnd2 Hno1 Hno2 Hc1 Hv1 Hc2 Hv2 Hlen1 Hlen2.
  unfold merged_data_of.
  rewrite (getitem_list_two (rename df1 "Country Name" "Country")
             "Country" "2018" c1 v1);
    [|by apply NoDup_labels_rename|by rewrite column_of_rename_new
     |by rewrite column_of_rename_other].
  rewrite (getitem_list_two (rename df2 "Country Name" "Country")
             "Country" "2018" c2 v2);
    [|by apply NoDup_labels_rename|by rewrite column_of_rename_new
     |by rewrite column_of_rename_other].
  cbn [mbind result_bind].
  set (pairs := merge_inner (key_rows c1) (key_rows c2)).
  set (plan := (λ r : K * (nat * nat), (r.1, (Some r.2.1, Some r.2.2))) <$> pairs).
  exists (keys plan), ((λ r, take_cell nan v1 r.2.1) <$> plan),
    ((λ r, take_cell nan v2 r.2.2) <$> plan).
  split; [reflexivity|]. unfold keys. rewrite !length_fmap.
  split; [done|]. split; [done|].
  assert (∀ r k i j, pairs !! r = Some (k, (i, j)) →
            c1 !! i = Some k ∧ c2 !! j = Some k
            ∧ ((λ r, take_cell nan v1 r.2.1) <$> plan) !! r = v1 !! i
            ∧ ((λ r, take_cell nan v2 r.2.2) <$> plan) !! r = v2 !! j) as Hrow.
  { intros r k i j Hr.
    pose proof (list_elem_of_lookup_2 _ _ _ Hr) as Hin.
    apply elem_of_merge_inner in Hin as [Hi%elem_of_key_rows_lookup
                                         Hj%elem_of_key_rows_lookup].
    split; [done|]. split; [done|]. unfold plan.
    rewrite <- !list_fmap_compose, !list_lookup_fmap, Hr.
    cbn [fmap option_fmap option_map compose fst snd take_cell].
    destruct (lookup_lt_is_Some_2 v1 i) as [a Ha];
      [rewrite Hlen1; by eapply lookup_lt_Some|].
    destruct (lookup_lt_is_Some_2 v2 j) as [b Hb];
      [rewrite Hlen2; by eapply lookup_lt_Some|].
    by rewrite Ha, Hb. }
  split.
  - intros r k Hr. unfold plan in Hr.
    rewrite <- list_fmap_compose, list_lookup_fmap in Hr.
    destruct (pairs !! r) as [[k' [i j]]|] eqn:Hp; [|done].
    cbn in Hr. simplify_eq. exists i, j. by apply Hrow.
  - intros i j k Hi Hj.
    assert ((k, (i, j)) ∈ pairs) as Hin
      by (apply elem_of_merge_inner; by rewrite !elem_of_key_rows_lookup).
    apply list_elem_of_lookup_1 in Hin as [r Hr]. exists r. split.
    + unfold plan. rewrite <- list_fmap_compose, list_lookup_fmap, Hr. done.
    + by apply (Hrow r k i j).
Qed.

Variable key_le : K → K → bool.
Variable text : string → K.

(** The list that the script prints last.  For two frames with a column
    [Country Name], neither or both with a column labelled ["exists"], the
    call of line 211 succeeds on the frames renamed by lines 122 and 123,
    and reports the countries that one frame has and the other has not. *)
Theorem diff_list_of_countries (df1 df2 : DataFrame K) (c1 c2 : list K) :
  nan ≠ text "Y" →
  "Country" ∉ labels df1 → "Country" ∉ labels df2 →
  ("exists" ∈ labels df1 ↔ "exists" ∈ labels df2) →
  column_of df1 "Country Name" = Some c1 →
  column_of df2 "Country Name" = Some c2 →
  ∃ diff_list,
    diff_list_of nan key_le text df1 df2 = Ok diff_list
    ∧ ∀ k, k ∈ diff_list ↔ (k ∈ c1 ∧ k ∉ c2) ∨ (k ∈ c2 ∧ k ∉ c1).
Proof.
  intros Hnan Hno1 Hno2 Hiff Hc1 Hc2. unfold diff_list_of.
  apply get_diff_entries_symmetric_difference; [done|done| |..].
  - by rewrite !elem_of_labels_rename.
  - by rewrite column_of_rename_new.
  - by rewrite column_of_rename_new.
Qed.
End Assemble.

Lemma merged_data_columns_witness :
  ∃ country renewable access,
    merged_data_of None
      (text_frame [("Country Name", ["A"; "B"]); ("2018", ["1"; "2"])])
      (text_frame [("Country Name", ["B"; "C"]); ("2018", ["3"; "4"])])
    = Ok [("Country", country); ("2018_renewable", renewable);
          ("2018_access", access)]
    ∧ length renewable = length country ∧ length access = length country
    ∧ (∀ r k, country !! r = Some k →
         ∃ i j, [Some "A"; Some "B"] !! i = Some k
                ∧ [Some "B"; Some "C"] !! j = Some k
                ∧ renewable !! r = [Some "1"; Some "2"] !! i
                ∧ access !! r = [Some "3"; Some "4"] !! j)
    ∧ (∀ i j k, [Some "A"; Some "B"] !! i = Some k →
         [Some "B"; Some "C"] !! j = Some k →
         ∃ r, country !! r = Some k
              ∧ renewable !! r = [Some "1"; Some "2"] !! i
              ∧ access !! r = [Some "3"; Some "4"] !! j).
Proof.
  apply (merged_data_columns None
           (text_frame [("Country Name", ["A"; "B"]); ("2018", ["1"; "2"])])
           (text_frame [("Country Name", ["B"; "C"]); ("2018", ["3"; "4"])])).
  - apply (bool_decide_unpack _). reflexivity.
  - apply (bool_decide_unpack _). reflexivity.
  - apply (bool_decide_eq_false_1 _). reflexivity.
  - apply (bool_decide_eq_false_1 _). reflexivity.
  - reflexivity.
  - reflexivity.
  - reflexivity.
  - reflexivity.
  - reflexivity.
  - reflexivity.
Defined.

Lemma diff_list_of_countries_witness :
  ∃ diff_list,
    diff_list_of None text_le Some
      (text_frame [("Country Name", ["A"; "B"]); ("2018", ["1"; "2"])])
      (text_frame [("Country Name", ["B"; "C"]); ("2018", ["3"; "4"])])
    = Ok diff_list
    ∧ ∀ k, k ∈ diff_list
           ↔ (k ∈ [Some "A"; Some "B"] ∧ k ∉ [Some "B"; Some "C"])
             ∨ (k ∈ [Some "B"; Some "C"] ∧ k ∉ [Some "A"; Some "B"]).
Proof.
  apply (diff_list_of_countries None text_le Some
           (text_frame [("Country Name", ["A"; "B"]); ("2018", ["1"; "2"])])
           (text_frame [("Country Name", ["B"; "C"]); ("2018", ["3"; "4"])])).
  - done.
  - apply (bool_decide_eq_false_1 _). reflexivity.
  - apply (bool_decide_eq_false_1 _). reflexivity.
  - split; intros Hin; exfalso; revert Hin;
      apply (bool_decide_eq_false_1 _); reflexivity.
  - reflexivity.
  - reflexivity.
Defined.

End AssembleFacts.
